(** * Compartmental epidemic models (SIRD, SLIRD): derivative laws and drivers

    Shallow embedding of [MODELO_SIRD.py] and [MODELO_SLIRD.py].

    The Python functions are written against whatever number type the
    caller hands them ([int], [float], numpy scalars).  The embedding
    keeps that: every definition is generic in a [Num] interface that
    offers exactly the operations the code uses.  Two instances are
    given: IEEE binary64 ([float], what the interpreter computes with;
    executable) and the real numbers (the compartment fractions and
    rates of the model; exact arithmetic, on which the algebraic laws
    are proved). *)

From Stdlib Require Import String.
From Stdlib Require Import List ZArith Bool Lia.
From Stdlib Require Import Reals Lra Ring.
From Stdlib Require Import Floats.
Import ListNotations.

Set Implicit Arguments.
#[local] Set Warnings "-inexact-float,-register-all".

(** ** Numbers *)

Class Num (A : Type) : Type := {
  of_Z : Z -> A;          (* an [int] used where a number is expected *)
  add : A -> A -> A;      (* [+] *)
  sub : A -> A -> A;      (* [-] *)
  mul : A -> A -> A;      (* [*] *)
  div : A -> A -> A;      (* [/], true division *)
  eqb : A -> A -> bool    (* [==] *)
}.

Declare Scope num_scope.
Delimit Scope num_scope with num.
Infix "+" := add : num_scope.
Infix "-" := sub : num_scope.
Infix "*" := mul : num_scope.
Infix "/" := div : num_scope.

(** A decimal literal [m·10^-e]: [0.99] is [dec 99 2].  The quotient of
    two exactly represented integers is correctly rounded in binary64,
    so at [float] this is the double the Python literal denotes. *)
Definition dec {A} `{Num A} (m : Z) (e : nat) : A :=
  (of_Z m / of_Z (10 ^ Z.of_nat e))%num.

(** Unary minus, as [0 - x]; only needed to state the ring laws. *)
Definition opp {A} `{Num A} (x : A) : A := (of_Z 0 - x)%num.

(** Exact arithmetic: the operations form a commutative ring. *)
Definition NumRing (A : Type) `{Num A} : Prop :=
  ring_theory (of_Z 0) (of_Z 1) add mul sub opp (@eq A).

Arguments NumRing A {H}.

#[export] Instance Num_R : Num R := {
  of_Z := IZR;
  add := Rplus;
  sub := Rminus;
  mul := Rmult;
  div := Rdiv;
  eqb := fun x y => if Req_dec_T x y then true else false
}.

(** [float(z)] for an integer literal; exact for [|z| < 2^53], which
    covers every integer the code writes. *)
Definition float_of_Z (z : Z) : float :=
  match z with
  | Z0 => PrimFloat.zero
  | Zpos _ => PrimFloat.of_uint63 (Uint63.of_Z z)
  | Zneg p => PrimFloat.opp (PrimFloat.of_uint63 (Uint63.of_Z (Zpos p)))
  end.

#[export] Instance Num_float : Num float := {
  of_Z := float_of_Z;
  add := PrimFloat.add;
  sub := PrimFloat.sub;
  mul := PrimFloat.mul;
  div := PrimFloat.div;
  eqb := PrimFloat.eqb
}.

(** [<], where an order on the numbers is needed. *)
Class Ord (A : Type) : Type := { num_ltb : A -> A -> bool }.

#[export] Instance Ord_R : Ord R := {
  num_ltb := fun x y => if Rlt_dec x y then true else false
}.

#[export] Instance Ord_float : Ord float := { num_ltb := PrimFloat.ltb }.

(** Strictly increasing, decided with [<]. *)
Fixpoint increasing {A} `{Ord A} (l : list A) : bool :=
  match l with
  | a :: (b :: _) as l' => num_ltb a b && increasing l'
  | _ => true
  end.

(** Strictly increasing, decided on binary64 samples. *)
Fixpoint increasingb (l : list float) : bool :=
  match l with
  | a :: (b :: _) as l' => PrimFloat.ltb a b && increasingb l'
  | _ => true
  end.

(** ** Vectors: Python lists and 1-D arrays of numbers *)

Section Vectors.
Context {A : Type} `{Num A}.
Local Open Scope num_scope.

(** [sum(v)]: left fold starting from [0]. *)
Definition vsum (v : list A) : A := fold_left add v (of_Z 0).

(** Element-wise [u + v] and [h * v], the array operations an
    integrator applies to states and derivatives. *)
Fixpoint vadd (u v : list A) : list A :=
  match u, v with
  | a :: u', b :: v' => (a + b) :: vadd u' v'
  | _, _ => []
  end.

Definition vscale (h : A) (v : list A) : list A := map (mul h) v.
End Vectors.

(** ** The derivative functions *)

Section Models.
Context {A : Type} `{Num A}.
Local Open Scope num_scope.

(** [sird_model(y, t, beta, rho, delta, alpha, lambda_)].  The
    unpacking [S, I, R = y] raises unless [y] has three entries.
    ([S], [I] and [R] are taken in Rocq, hence the underscores.) *)
Definition sird_model (y : list A) (t : A)
    (beta rho delta alpha lambda_ : A) : option (list A) :=
  match y with
  | [S_; I_; R_] =>
      let dSdt := alpha - beta * S_ * I_ + lambda_ * R_ in
      let dIdt := beta * S_ * I_ - delta * I_ - rho * I_ in
      let dRdt := rho * I_ - lambda_ * R_ in
      Some [dSdt; dIdt; dRdt]
  | _ => None
  end.

(** [slird_model(y, t, beta, rho, delta, alpha, lambda_, gamma)]. *)
Definition slird_model (y : list A) (t : A)
    (beta rho delta alpha lambda_ gamma : A) : option (list A) :=
  match y with
  | [S_; L_; I_; R_] =>
      let dSdt := alpha - beta * S_ * I_ + lambda_ * R_ in
      let dLdt := beta * S_ * I_ - gamma * L_ in
      let dIdt := gamma * L_ - delta * I_ - rho * I_ in
      let dRdt := rho * I_ - lambda_ * R_ in
      Some [dSdt; dLdt; dIdt; dRdt]
  | _ => None
  end.
End Models.


(** ** The derivative functions on parameters that may be [None]

    Dash hands a callback the value of each input field: a number, or
    [None] when the field is empty.  A parameter is then an [option]: a
    number or [None].  An arithmetic operation raises when an operand is
    [None]; the result of an expression is [None] when evaluating it
    raised. *)

Section ModelsPy.
Context {A : Type} `{Num A}.

Definition py_binop (op : A -> A -> A) (u v : option A) : option A :=
  match u, v with
  | Some a, Some b => Some (op a b)
  | _, _ => None
  end.

(** The list [[d1, ..., dn]] of evaluated expressions. *)
Fixpoint py_list (l : list (option A)) : option (list A) :=
  match l with
  | [] => Some []
  | Some a :: l' => option_map (cons a) (py_list l')
  | None :: _ => None
  end.

Declare Scope py_scope.
Delimit Scope py_scope with py.
Local Infix "+" := (py_binop add) : py_scope.
Local Infix "-" := (py_binop sub) : py_scope.
Local Infix "*" := (py_binop mul) : py_scope.
Local Open Scope py_scope.

Definition sird_model_py (y : list A) (t : A)
    (beta rho delta alpha lambda_ : option A) : option (list A) :=
  match y with
  | [S_; I_; R_] =>
      let S_ := Some S_ in
      let I_ := Some I_ in
      let R_ := Some R_ in
      let dSdt := alpha - beta * S_ * I_ + lambda_ * R_ in
      let dIdt := beta * S_ * I_ - delta * I_ - rho * I_ in
      let dRdt := rho * I_ - lambda_ * R_ in
      py_list [dSdt; dIdt; dRdt]
  | _ => None
  end.

Definition slird_model_py (y : list A) (t : A)
    (beta rho delta alpha lambda_ gamma : option A) : option (list A) :=
  match y with
  | [S_; L_; I_; R_] =>
      let S_ := Some S_ in
      let L_ := Some L_ in
      let I_ := Some I_ in
      let R_ := Some R_ in
      let dSdt := alpha - beta * S_ * I_ + lambda_ * R_ in
      let dLdt := beta * S_ * I_ - gamma * L_ in
      let dIdt := gamma * L_ - delta * I_ - rho * I_ in
      let dRdt := rho * I_ - lambda_ * R_ in
      py_list [dSdt; dLdt; dIdt; dRdt]
  | _ => None
  end.
End ModelsPy.

(** ** Effects: calls run in a world and may raise

    A call of a Python function runs in some state of the process (the
    module globals, the interpreter).  [M X] is a computation that reads
    and writes such a world and either returns an [X] or raises; the
    world survives an exception. *)

Section Effects.
Variable World : Type.

Definition M (X : Type) : Type := World -> option X * World.

Definition ret {X} (v : X) : M X := fun w => (Some v, w).

Definition raise {X} : M X := fun w => (None, w).

Definition bind {X Y} (c : M X) (k : X -> M Y) : M Y :=
  fun w => match c w with
           | (Some v, w') => k v w'
           | (None, w') => (None, w')
           end.
End Effects.

Arguments ret {World X} v.
Arguments raise {World X}.
Arguments bind {World X Y} c k.

Notation "x <- c ;; k" := (bind c (fun x => k))
  (at level 61, c at next level, right associativity).
Notation "' pat <- c ;; k" := (bind c (fun v => match v with pat => k end))
  (at level 61, pat pattern, c at next level, right associativity).

(** ** numpy: 2-D arrays, transposition, [linspace] *)

Section Numpy.
Context {A : Type} `{Num A}.
Local Open Scope num_scope.

(** A 2-D [ndarray]: its shape and its rows. *)
Record ndarray : Type := { shape : nat * nat; rows : list (list A) }.

Definition column (j : nat) (a : ndarray) : list A :=
  map (fun r => nth j r (of_Z 0)) (rows a).

(** [a.T] *)
Definition T (a : ndarray) : ndarray :=
  {| shape := (snd (shape a), fst (shape a));
     rows := map (fun j => column j a) (seq 0 (snd (shape a))) |}.

(** Unpacking the rows of an array into three, resp. four, names. *)
Definition unpack3 {World} (a : ndarray) : M World (list A * list A * list A) :=
  match rows a with
  | [r0; r1; r2] => ret (r0, r1, r2)
  | _ => raise
  end.

Definition unpack4 {World} (a : ndarray)
  : M World (list A * list A * list A * list A) :=
  match rows a with
  | [r0; r1; r2; r3] => ret (r0, r1, r2, r3)
  | _ => raise
  end.

(** [y[-1] = v] on a non-empty 1-D array. *)
Definition set_last (y : list A) (v : A) : list A :=
  match y with
  | [] => []
  | _ => removelast y ++ [v]
  end.

(** [np.linspace(start, stop, num)] with the default [endpoint=True],
    following numpy's computation: [arange(0, num) * step + start] with
    [step = (stop - start) / (num - 1)], the last sample then overwritten
    with [stop]. *)
Definition linspace (start stop : A) (num : nat) : list A :=
  let div_ := (num - 1)%nat in
  let delta := stop - start in
  let y := map (fun i => of_Z (Z.of_nat i)) (seq 0 num) in
  let y :=
    if (0 <? div_)%nat then
      let step := delta / of_Z (Z.of_nat div_) in
      if eqb step (of_Z 0)
      then map (fun v => v / of_Z (Z.of_nat div_) * delta) y
      else map (fun v => v * step) y
    else map (fun v => v * delta) y in
  let y := map (fun v => v + start) y in
  if (1 <? num)%nat then set_last y stop else y.
End Numpy.

Arguments ndarray A : clear implicits.

(** ** scipy: the integrator

    [odeint(func, y0, t, args=...)] is scipy's; the drivers only call
    it.  It is an interface here.  [func] is the derivative function
    already applied to [args] (scipy calls [func(y, t, *args)]). *)

Class Integrate (A World : Type) : Type := {
  odeint : (list A -> A -> option (list A)) -> list A -> list A
           -> M World (ndarray A)
}.

(** ** Figures *)

(** Layout values: strings, decimal numbers [m·10^-e], nested dicts. *)
Inductive pyobj : Type :=
| PStr (s : string)
| PNum (m : Z) (e : nat)
| PDict (kv : list (string * pyobj)).

Record trace (A : Type) : Type := {
  trace_x : list A;
  trace_y : list A;
  trace_type : string;
  trace_mode : option string;
  trace_name : string;
  trace_color : string
}.

Record figure (A : Type) : Type := {
  data : list (trace A);
  layout : list (string * pyobj)
}.


(** ** The drivers: [update_graph] of each file *)

Module MODELO_SIRD.
Section Driver.
Context {A World : Type} `{Num A} {Int : Integrate A World}.
Local Open Scope string_scope.

(** The locals of [update_graph] that do not depend on its arguments. *)
Definition S0 : A := dec 99 2.
Definition I0 : A := dec 1 2.
Definition R0 : A := dec 0 1.
Definition y0 : list A := [S0; I0; R0].
Definition t : list A := linspace (of_Z 0) (of_Z 160) 160.

Definition fig (S_ I_ R_ : list A) : figure A :=
  {| data :=
       [ {| trace_x := t; trace_y := S_; trace_type := "line";
            trace_mode := None; trace_name := "Susceptibles";
            trace_color := "#1f77b4" |};
         {| trace_x := t; trace_y := I_; trace_type := "line";
            trace_mode := None; trace_name := "Infectados";
            trace_color := "#ff7f0e" |};
         {| trace_x := t; trace_y := R_; trace_type := "line";
            trace_mode := None; trace_name := "Recuperados";
            trace_color := "#2ca02c" |} ];
     layout :=
       [ ("title", PStr "Modelo SIRD");
         ("xaxis", PDict [("title", PStr "Tiempo")]);
         ("yaxis", PDict [("title", PStr "Proporción de la población")]);
         ("plot_bgcolor", PStr "#ffffff");
         ("paper_bgcolor", PStr "#f4f6f9") ] |}.

Definition update_graph (beta rho delta alpha lambda_ : A)
  : M World (figure A) :=
  solution <- odeint (fun y s => sird_model y s beta rho delta alpha lambda_)
                     y0 t ;;
  '(S_, I_, R_) <- unpack3 (T solution) ;;
  ret (fig S_ I_ R_).

(** [update_graph] on parameters that may be [None]. *)
Definition update_graph_py (beta rho delta alpha lambda_ : option A)
  : M World (figure A) :=
  solution <- odeint (fun y s =>
                        sird_model_py y s beta rho delta alpha lambda_)
                     y0 t ;;
  '(S_, I_, R_) <- unpack3 (T solution) ;;
  ret (fig S_ I_ R_).

(** A call of [update_graph] on a list of arguments: the interpreter
    raises, before the body runs, unless there are as many arguments as
    parameters. *)
Definition call_update_graph (args : list (option A)) : M World (figure A) :=
  match args with
  | [beta; rho; delta; alpha; lambda_] =>
      update_graph_py beta rho delta alpha lambda_
  | _ => raise
  end.
End Driver.
End MODELO_SIRD.

Module MODELO_SLIRD.
Section Driver.
Context {A World : Type} `{Num A} {Int : Integrate A World}.
Local Open Scope string_scope.

Definition S0 : A := dec 99 2.
Definition L0 : A := dec 0 1.
Definition I0 : A := dec 1 2.
Definition R0 : A := dec 0 1.
Definition y0 : list A := [S0; L0; I0; R0].
Definition t : list A := linspace (of_Z 0) (of_Z 160) 160.

Definition scatter (ys : list A) (name color : string) : trace A :=
  {| trace_x := t; trace_y := ys; trace_type := "scatter";
     trace_mode := Some "lines"; trace_name := name;
     trace_color := color |}.

(** The figure after the four [add_trace] and [update_layout]: plotly
    files [title=...] under [title.text] and [xaxis_title=...] under
    [xaxis.title.text].  The template plotly attaches to every figure is
    not part of the model. *)
Definition fig (S_ L_ I_ R_ : list A) : figure A :=
  {| data :=
       [ scatter S_ "Susceptibles" "#1f77b4";
         scatter L_ "Latentes" "#ff7f0e";
         scatter I_ "Infectados" "#d62728";
         scatter R_ "Recuperados" "#2ca02c" ];
     layout :=
       [ ("title", PDict [("text", PStr "Modelo SLIRD")]);
         ("xaxis", PDict [("title", PDict [("text", PStr "Tiempo")])]);
         ("yaxis",
          PDict [("title",
                  PDict [("text", PStr "Proporción de la población")])]);
         ("hovermode", PStr "x unified");
         ("plot_bgcolor", PStr "#ffffff");
         ("paper_bgcolor", PStr "#f4f6f9");
         ("font", PDict [("family", PStr "Roboto, sans-serif");
                         ("size", PNum 12 0); ("color", PStr "#333")]);
         ("legend", PDict [("x", PNum 1 2); ("y", PNum 99 2);
                           ("traceorder", PStr "normal");
                           ("bgcolor", PStr "rgba(255, 255, 255, 0.7)");
                           ("bordercolor", PStr "Black");
                           ("borderwidth", PNum 1 0)]) ] |}.

Definition update_graph (beta rho delta alpha lambda_ gamma : A)
  : M World (figure A) :=
  solution <- odeint (fun y s =>
                        slird_model y s beta rho delta alpha lambda_ gamma)
                     y0 t ;;
  '(S_, L_, I_, R_) <- unpack4 (T solution) ;;
  ret (fig S_ L_ I_ R_).

Definition update_graph_py (beta rho delta alpha lambda_ gamma : option A)
  : M World (figure A) :=
  solution <- odeint (fun y s =>
                        slird_model_py y s beta rho delta alpha lambda_ gamma)
                     y0 t ;;
  '(S_, L_, I_, R_) <- unpack4 (T solution) ;;
  ret (fig S_ L_ I_ R_).

Definition call_update_graph (args : list (option A)) : M World (figure A) :=
  match args with
  | [beta; rho; delta; alpha; lambda_; gamma] =>
      update_graph_py beta rho delta alpha lambda_ gamma
  | _ => raise
  end.
End Driver.
End MODELO_SLIRD.

(** ** States an integrator computes

    Numerical integrators advance a state by adding multiples of
    derivatives evaluated at states they have already formed: every
    stage and step of an explicit Runge-Kutta or Adams method, and every
    iterate of a predictor-corrector, has the form [y + h * f(y', s)].
    [Reachable f y0] is the closure of [y0] under such increments. *)

Inductive Reachable {A} `{Num A} (f : list A -> A -> option (list A))
    (y0 : list A) : list A -> Prop :=
| Reachable_init : Reachable f y0 y0
| Reachable_incr : forall y y' s h k,
    Reachable f y0 y -> Reachable f y0 y' -> f y' s = Some k ->
    Reachable f y0 (vadd y (vscale h k)).

(** An integrator that works by increments: every row of its result
    is reachable from [y0]. *)
Definition odeint_by_increments {A World} `{Num A} (Int : Integrate A World)
  : Prop :=
  forall (f : list A -> A -> option (list A)) (y0 t : list A) (w : World) sol,
    fst (odeint f y0 t w) = Some sol ->
    Forall (Reachable f y0) (rows sol).

(** ** A reference integrator: forward Euler on the grid

    The simplest integrator that works by increments, and one that
    can be run. *)

Section Euler.
Context {A World : Type} `{Num A}.
Local Open Scope num_scope.

Fixpoint euler_rows (f : list A -> A -> option (list A))
    (y : list A) (s : A) (ts : list A) : option (list (list A)) :=
  match ts with
  | [] => Some []
  | s' :: ts' =>
      match f y s with
      | Some k =>
          let y' := vadd y (vscale (s' - s) k) in
          option_map (cons y') (euler_rows f y' s' ts')
      | None => None
      end
  end.

Definition euler_odeint (f : list A -> A -> option (list A))
    (y0 ts : list A) : M World (ndarray A) :=
  match ts with
  | [] => raise
  | s0 :: ts' =>
      match euler_rows f y0 s0 ts' with
      | Some r => ret {| shape := (length ts, length y0); rows := y0 :: r |}
      | None => raise
      end
  end.

Definition Euler : Integrate A World := {| odeint := euler_odeint |}.
End Euler.

Arguments Euler {A} World {H}.


(** ** An integrator that returns an array of the wrong width

    Nothing in the drivers checks what [odeint] hands back; this
    integrator returns one row of two entries, whatever it is asked. *)

Definition narrow_odeint {A World : Type} `{Num A}
    (f : list A -> A -> option (list A)) (y0 ts : list A)
  : M World (ndarray A) :=
  ret {| shape := (1%nat, 2%nat); rows := [[of_Z 0; of_Z 0]] |}.

Definition Narrow {A : Type} (World : Type) `{Num A} : Integrate A World :=
  {| odeint := narrow_odeint |}.

(** ** The integrator of the specification

    The repository has no integrator of its own: the drivers call
    [scipy.integrate.odeint].  The specification (section 4.2)
    describes the integrator it expects, and accepts a fixed-step
    fourth-order Runge-Kutta method; that is the one modelled here. *)

Section RungeKutta.
Context {A World : Type} `{Num A} `{Ord A}.
Local Open Scope num_scope.

(** Modelled from the spec: the ODE integrator's step, absent from the
    repository.  One classical fourth-order Runge-Kutta step of size
    [h] from [(s, y)]; the weighted slopes are added one after the
    other. *)
Definition rk4_step (f : list A -> A -> option (list A))
    (y : list A) (s h : A) : option (list A) :=
  match f y s with
  | None => None
  | Some k1 =>
  match f (vadd y (vscale (h / of_Z 2) k1)) (s + h / of_Z 2) with
  | None => None
  | Some k2 =>
  match f (vadd y (vscale (h / of_Z 2) k2)) (s + h / of_Z 2) with
  | None => None
  | Some k3 =>
  match f (vadd y (vscale h k3)) (s + h) with
  | None => None
  | Some k4 =>
      Some (vadd (vadd (vadd (vadd y (vscale (h / of_Z 6) k1))
                             (vscale (h / of_Z 3) k2))
                       (vscale (h / of_Z 3) k3))
                 (vscale (h / of_Z 6) k4))
  end end end end.

(** Modelled from the spec: the ODE integrator's sweep over the grid,
    absent from the repository.  One step per grid interval, one state
    per grid point, in grid order. *)
Fixpoint rk4_rows (f : list A -> A -> option (list A))
    (y : list A) (s : A) (ts : list A) : option (list (list A)) :=
  match ts with
  | [] => Some []
  | s' :: ts' =>
      match rk4_step f y s (s' - s) with
      | Some y' => option_map (cons y') (rk4_rows f y' s' ts')
      | None => None
      end
  end.

(** Modelled from the spec: the ODE integrator, absent from the
    repository.  Input: initial state, time grid (strictly increasing,
    at least two points; a degenerate grid is fatal), derivative
    function.  Output: one state per grid point, the first equal to the
    initial state exactly.  A derivative function that raises (a state
    of the wrong size) makes the integrator raise. *)
Definition rk4_odeint (f : list A -> A -> option (list A))
    (y0 ts : list A) : M World (ndarray A) :=
  match ts with
  | s0 :: (_ :: _) as ts' =>
      if increasing ts then
        match rk4_rows f y0 s0 ts' with
        | Some r =>
            ret {| shape := (length ts, length y0); rows := y0 :: r |}
        | None => raise
        end
      else raise
  | _ => raise
  end.

Definition RK4 : Integrate A World := {| odeint := rk4_odeint |}.
End RungeKutta.

Arguments RK4 {A} World {H H0}.

(** The same integrator, counting in the world how often it was
    called. *)
Definition Counting {A : Type} `{Num A} `{Ord A} : Integrate A nat :=
  {| odeint := fun f y0 ts n => rk4_odeint f y0 ts (S n) |}.

(** ** The shape invariant of a run

    What the specification asks of the trajectory a driver returns, for
    a driver run with the integrator of the specification: for every
    parameter set the call returns a figure; every series has the 160
    samples of the grid; the grid starts at [0]; the first samples are
    the initial state; and sample [i + 1] of the series is the state the
    integrator reaches from sample [i] over the grid interval from
    [t[i]] to [t[i + 1]]. *)

Definition sird_shape_invariant (A World : Type) `{Num A} `{Ord A} : Prop :=
  forall (beta rho delta alpha lambda_ : A) (w : World),
  exists S_ I_ R_ : list A,
    let z := of_Z 0 in
    let t := MODELO_SIRD.t in
    MODELO_SIRD.update_graph (Int := RK4 World) beta rho delta alpha lambda_ w
    = (Some (MODELO_SIRD.fig S_ I_ R_), w) /\
    length t = 160%nat /\
    length S_ = 160%nat /\ length I_ = 160%nat /\ length R_ = 160%nat /\
    nth 0 t z = z /\
    [nth 0 S_ z; nth 0 I_ z; nth 0 R_ z] = MODELO_SIRD.y0 /\
    forall i, (S i < 160)%nat ->
      rk4_step (fun y s => sird_model y s beta rho delta alpha lambda_)
               [nth i S_ z; nth i I_ z; nth i R_ z]
               (nth i t z) (nth (S i) t z - nth i t z)%num
      = Some [nth (S i) S_ z; nth (S i) I_ z; nth (S i) R_ z].

Definition slird_shape_invariant (A World : Type) `{Num A} `{Ord A} : Prop :=
  forall (beta rho delta alpha lambda_ gamma : A) (w : World),
  exists S_ L_ I_ R_ : list A,
    let z := of_Z 0 in
    let t := MODELO_SLIRD.t in
    MODELO_SLIRD.update_graph (Int := RK4 World)
      beta rho delta alpha lambda_ gamma w
    = (Some (MODELO_SLIRD.fig S_ L_ I_ R_), w) /\
    length t = 160%nat /\
    length S_ = 160%nat /\ length L_ = 160%nat /\
    length I_ = 160%nat /\ length R_ = 160%nat /\
    nth 0 t z = z /\
    [nth 0 S_ z; nth 0 L_ z; nth 0 I_ z; nth 0 R_ z] = MODELO_SLIRD.y0 /\
    forall i, (S i < 160)%nat ->
      rk4_step (fun y s =>
                  slird_model y s beta rho delta alpha lambda_ gamma)
               [nth i S_ z; nth i L_ z; nth i I_ z; nth i R_ z]
               (nth i t z) (nth (S i) t z - nth i t z)%num
      = Some [nth (S i) S_ z; nth (S i) L_ z; nth (S i) I_ z; nth (S i) R_ z].

Arguments sird_shape_invariant A World {H H0}.
Arguments slird_shape_invariant A World {H H0}.

(** * Properties *)

(** ** Exact arithmetic *)

Lemma R_NumRing : NumRing R.
Proof.
  unfold NumRing, opp; simpl.
  constructor; intros; ring.
Qed.

Section Exact.
Context {A : Type} `{Num A} (Rth : NumRing A).
Local Open Scope num_scope.

Let Rth' : ring_theory (of_Z 0) (of_Z 1) add mul sub opp (@eq A) := Rth.
Add Ring num_ring : Rth'.

Lemma fold_add_acc (v : list A) (a : A) :
  fold_left add v a = a + vsum v.
Proof.
  unfold vsum. revert a.
  induction v as [|b v IH]; intros a; simpl.
  - ring.
  - rewrite (IH (a + b)), (IH (of_Z 0 + b)). ring.
Qed.

Lemma zero_minus_zero_mul (a : A) : of_Z 0 - of_Z 0 * a = of_Z 0.
Proof. ring. Qed.

Lemma infected_rate_at_zero (b a d r : A) :
  b * a * of_Z 0 - d * of_Z 0 - r * of_Z 0 = of_Z 0.
Proof. ring. Qed.

Lemma latent_rate_at_zero (b a g : A) : b * a * of_Z 0 - g * of_Z 0 = of_Z 0.
Proof. ring. Qed.

Lemma slird_infected_rate_at_zero (g d r : A) :
  g * of_Z 0 - d * of_Z 0 - r * of_Z 0 = of_Z 0.
Proof. ring. Qed.

Lemma vsum_nil : vsum (@nil A) = of_Z 0.
Proof. reflexivity. Qed.

Lemma vsum_cons (a : A) (v : list A) : vsum (a :: v) = a + vsum v.
Proof.
  unfold vsum at 1; simpl. rewrite fold_add_acc. ring.
Qed.

Lemma vsum_increment (h : A) (y k : list A) :
  length y = length k ->
  vsum (vadd y (vscale h k)) = vsum y + h * vsum k.
Proof.
  revert k. induction y as [|a y IH]; intros [|b k] Hlen;
    simpl in Hlen; try discriminate.
  - simpl. rewrite vsum_nil. ring.
  - injection Hlen as Hlen. simpl.
    rewrite !vsum_cons, (IH k Hlen). ring.
Qed.

(** The derivative components add up to replenishment minus deaths. *)
Lemma sird_model_sum (y : list A) (s beta rho delta alpha lambda_ : A)
    (d : list A) :
  sird_model y s beta rho delta alpha lambda_ = Some d ->
  vsum d = alpha - delta * nth 1 y (of_Z 0).
Proof.
  destruct y as [|S_ [|I_ [|R_ [|? ?]]]]; try discriminate.
  intros E. injection E as <-. simpl nth.
  rewrite !vsum_cons, vsum_nil. ring.
Qed.

Lemma slird_model_sum (y : list A) (s beta rho delta alpha lambda_ gamma : A)
    (d : list A) :
  slird_model y s beta rho delta alpha lambda_ gamma = Some d ->
  vsum d = alpha - delta * nth 2 y (of_Z 0).
Proof.
  destruct y as [|S_ [|L_ [|I_ [|R_ [|? ?]]]]]; try discriminate.
  intros E. injection E as <-. simpl nth.
  rewrite !vsum_cons, vsum_nil. ring.
Qed.

Lemma sird_model_length (y : list A) (s beta rho delta alpha lambda_ : A)
    (d : list A) :
  sird_model y s beta rho delta alpha lambda_ = Some d ->
  length y = 3%nat /\ length d = 3%nat.
Proof.
  destruct y as [|S_ [|I_ [|R_ [|? ?]]]]; try discriminate.
  intros E. injection E as <-. split; reflexivity.
Qed.

Lemma slird_model_length (y : list A)
    (s beta rho delta alpha lambda_ gamma : A) (d : list A) :
  slird_model y s beta rho delta alpha lambda_ gamma = Some d ->
  length y = 4%nat /\ length d = 4%nat.
Proof.
  destruct y as [|S_ [|L_ [|I_ [|R_ [|? ?]]]]]; try discriminate.
  intros E. injection E as <-. split; reflexivity.
Qed.

(** A linear invariant of the increments is an invariant of every
    reachable state. *)
Lemma Reachable_ind_incr (f : list A -> A -> option (list A))
    (y0 : list A) (P : list A -> Prop) :
  P y0 ->
  (forall y y' s h k, P y -> P y' -> f y' s = Some k ->
                      P (vadd y (vscale h k))) ->
  forall y, Reachable f y0 y -> P y.
Proof.
  intros H0 Hstep y Hy.
  induction Hy as [|y y' s h k _ IH _ IH' E].
  - exact H0.
  - exact (Hstep y y' s h k IH IH' E).
Qed.

(** Without replenishment and without deaths the total is conserved. *)
Lemma sird_total_conserved (beta rho lambda_ : A) (y0 y : list A) :
  length y0 = 3%nat ->
  Reachable (fun y s => sird_model y s beta rho (of_Z 0) (of_Z 0) lambda_)
            y0 y ->
  length y = 3%nat /\ vsum y = vsum y0.
Proof.
  intros H0 Hy. pattern y.
  eapply Reachable_ind_incr; [split; [exact H0 | reflexivity] | | exact Hy].
  intros u u' s h k [Lu Su] [Lu' _] E.
  destruct (sird_model_length _ _ _ _ _ _ _ E) as [_ Lk].
  pose proof (sird_model_sum _ _ _ _ _ _ _ E) as Sk.
  assert (Luk : length u = length k) by congruence.
  split.
  - destruct u as [|? [|? [|? [|? ?]]]]; try discriminate.
    destruct k as [|? [|? [|? [|? ?]]]]; try discriminate.
    reflexivity.
  - rewrite (vsum_increment h u k Luk), Sk, Su. ring.
Qed.

Lemma slird_total_conserved (beta rho lambda_ gamma : A) (y0 y : list A) :
  length y0 = 4%nat ->
  Reachable (fun y s =>
               slird_model y s beta rho (of_Z 0) (of_Z 0) lambda_ gamma)
            y0 y ->
  length y = 4%nat /\ vsum y = vsum y0.
Proof.
  intros H0 Hy. pattern y.
  eapply Reachable_ind_incr; [split; [exact H0 | reflexivity] | | exact Hy].
  intros u u' s h k [Lu Su] [Lu' _] E.
  destruct (slird_model_length _ _ _ _ _ _ _ _ E) as [_ Lk].
  pose proof (slird_model_sum _ _ _ _ _ _ _ _ E) as Sk.
  assert (Luk : length u = length k) by congruence.
  split.
  - destruct u as [|? [|? [|? [|? [|? ?]]]]]; try discriminate.
    destruct k as [|? [|? [|? [|? [|? ?]]]]]; try discriminate.
    reflexivity.
  - rewrite (vsum_increment h u k Luk), Sk, Su. ring.
Qed.

(** The disease-free states form an invariant set. *)
Lemma sird_disease_free (beta rho delta alpha lambda_ S0 R0 : A)
    (y : list A) :
  Reachable (fun y s => sird_model y s beta rho delta alpha lambda_)
            [S0; of_Z 0; R0] y ->
  exists S_ R_, y = [S_; of_Z 0; R_].
Proof.
  intros Hy. pattern y.
  eapply Reachable_ind_incr; [now exists S0, R0 | | exact Hy].
  intros u u' s h k [Su [Ru ->]] [Su' [Ru' ->]] E.
  injection E as <-. simpl.
  eexists; eexists. f_equal. f_equal. ring.
Qed.

Lemma slird_disease_free (beta rho delta alpha lambda_ gamma S0 R0 : A)
    (y : list A) :
  Reachable (fun y s => slird_model y s beta rho delta alpha lambda_ gamma)
            [S0; of_Z 0; of_Z 0; R0] y ->
  exists S_ R_, y = [S_; of_Z 0; of_Z 0; R_].
Proof.
  intros Hy. pattern y.
  eapply Reachable_ind_incr; [now exists S0, R0 | | exact Hy].
  intros u u' s h k [Su [Ru ->]] [Su' [Ru' ->]] E.
  injection E as <-. simpl.
  eexists; eexists. f_equal. f_equal; [ring | f_equal; ring].
Qed.
End Exact.


(** ** The time grid *)

Section Grid.
Context {A : Type} `{Num A}.

Lemma set_last_length (y : list A) (v : A) :
  length (set_last y v) = length y.
Proof.
  destruct y as [|a y]; [reflexivity|].
  unfold set_last. rewrite length_app, removelast_firstn_len, length_firstn.
  simpl length. lia.
Qed.

Lemma set_last_nth_before (y : list A) (v d : A) (i : nat) :
  (S i < length y)%nat -> nth i (set_last y v) d = nth i y d.
Proof.
  intros Hi. destruct y as [|a y]; [reflexivity|].
  unfold set_last. rewrite removelast_firstn_len.
  rewrite app_nth1 by (rewrite length_firstn; simpl length in *; lia).
  rewrite nth_firstn.
  replace (i <? Nat.pred (length (a :: y)))%nat with true; [reflexivity|].
  symmetry. apply Nat.ltb_lt. simpl length in *. lia.
Qed.

Lemma set_last_nth_last (y : list A) (v d : A) :
  y <> [] -> nth (length y - 1) (set_last y v) d = v.
Proof.
  intros Hy. destruct y as [|a y]; [contradiction|].
  unfold set_last. rewrite removelast_firstn_len.
  rewrite app_nth2 by (rewrite length_firstn; simpl length; lia).
  rewrite length_firstn. simpl length.
  replace (S (length y) - 1 - Nat.min (Nat.pred (S (length y))) (S (length y)))%nat
    with 0%nat by lia.
  reflexivity.
Qed.

Lemma nth_map_seq {B : Type} (f : nat -> B) (n i : nat) (d : B) :
  (i < n)%nat -> nth i (map f (seq 0 n)) d = f i.
Proof.
  intros Hi.
  rewrite (nth_indep _ d (f 0%nat)) by (rewrite length_map, length_seq; exact Hi).
  rewrite map_nth, seq_nth by exact Hi. reflexivity.
Qed.

Lemma linspace_length (start stop : A) (num : nat) :
  length (linspace start stop num) = num.
Proof.
  unfold linspace.
  destruct (1 <? num)%nat; [rewrite set_last_length|];
    destruct (0 <? num - 1)%nat; try destruct (eqb _ _);
    rewrite !length_map, length_seq; reflexivity.
Qed.

Lemma linspace_last (start stop d : A) (num : nat) :
  (1 < num)%nat -> nth (num - 1) (linspace start stop num) d = stop.
Proof.
  intros Hn. unfold linspace.
  replace (1 <? num)%nat with true by (symmetry; apply Nat.ltb_lt; exact Hn).
  match goal with |- nth _ (set_last ?y _) _ = _ =>
    assert (Hlen : length y = num)
      by (destruct (0 <? num - 1)%nat; try destruct (eqb _ _);
          rewrite !length_map, length_seq; reflexivity)
  end.
  rewrite <- Hlen at 1. apply set_last_nth_last.
  intros E. rewrite E in Hlen. simpl in Hlen. lia.
Qed.
End Grid.

Lemma linspace_R_first (stop : R) (num : nat) :
  (1 < num)%nat -> nth 0 (linspace 0%R stop num) 0%R = 0%R.
Proof.
  intros Hn. unfold linspace.
  replace (1 <? num)%nat with true by (symmetry; apply Nat.ltb_lt; exact Hn).
  replace (0 <? num - 1)%nat with true by (symmetry; apply Nat.ltb_lt; lia).
  rewrite set_last_nth_before
    by (destruct (eqb _ _); rewrite !length_map, length_seq; lia).
  destruct (eqb _ _); rewrite !map_map, nth_map_seq by lia;
    simpl; unfold Rdiv; ring.
Qed.

Lemma time_grid_R_start :
  nth 0 (MODELO_SIRD.t (A := R)) 0%R = 0%R /\
  nth 0 (MODELO_SLIRD.t (A := R)) 0%R = 0%R.
Proof.
  split; apply (linspace_R_first 160%R (num := 160)); lia.
Qed.

(** On the reals the samples are [start + i * (stop - start) / (num - 1)]. *)
Lemma linspace_R_nth (start stop : R) (num i : nat) :
  (i < num)%nat -> (1 < num)%nat ->
  nth i (linspace start stop num) 0%R
  = (start + INR i * ((stop - start) / INR (num - 1)))%R.
Proof.
  intros Hi Hn.
  assert (Hd : INR (num - 1) <> 0%R) by (apply not_0_INR; lia).
  destruct (Nat.eq_dec i (num - 1)) as [->|Hne].
  - rewrite linspace_last by exact Hn. field. exact Hd.
  - unfold linspace.
    replace (1 <? num)%nat with true by (symmetry; apply Nat.ltb_lt; exact Hn).
    replace (0 <? num - 1)%nat with true by (symmetry; apply Nat.ltb_lt; lia).
    rewrite set_last_nth_before
      by (destruct (eqb _ _); rewrite !length_map, length_seq; lia).
    destruct (eqb _ _); rewrite !map_map, nth_map_seq by exact Hi;
      simpl; rewrite <- !INR_IZR_INZ; field; exact Hd.
Qed.


(** ** The derivative functions return on states of the right size *)

Section DriverFacts.
Context {A World : Type} `{Num A} {Int : Integrate A World}.

Lemma sird_model_total (beta rho delta alpha lambda_ : A) (y : list A) (s : A) :
  length y = 3%nat ->
  exists k, sird_model y s beta rho delta alpha lambda_ = Some k /\
            length k = 3%nat.
Proof.
  destruct y as [|S_ [|I_ [|R_ [|? ?]]]]; try discriminate.
  intros _. eexists; split; reflexivity.
Qed.

Lemma slird_model_total (beta rho delta alpha lambda_ gamma : A)
    (y : list A) (s : A) :
  length y = 4%nat ->
  exists k, slird_model y s beta rho delta alpha lambda_ gamma = Some k /\
            length k = 4%nat.
Proof.
  destruct y as [|S_ [|L_ [|I_ [|R_ [|? ?]]]]]; try discriminate.
  intros _. eexists; split; reflexivity.
Qed.

End DriverFacts.

(** ** The reference integrator works by increments *)

Section EulerFacts.
Context {A World : Type} `{Num A}.

Lemma vadd_vscale_length (h : A) (y k : list A) :
  length y = length k -> length (vadd y (vscale h k)) = length y.
Proof.
  revert k. induction y as [|a y IH]; intros [|b k] E;
    simpl in *; try discriminate; [reflexivity|].
  f_equal. apply IH. congruence.
Qed.

(** Every row Euler produces is reachable by increments. *)
Lemma euler_rows_reachable (f : list A -> A -> option (list A))
    (y0 : list A) :
  forall ts y s r,
    Reachable f y0 y -> euler_rows f y s ts = Some r ->
    Forall (Reachable f y0) r.
Proof.
  induction ts as [|s' ts IH]; intros y s r Hy E; simpl in E.
  - injection E as <-. constructor.
  - destruct (f y s) as [k|] eqn:Ek; [|discriminate].
    destruct (euler_rows f _ s' ts) as [r'|] eqn:Er; [|discriminate].
    injection E as <-.
    assert (Hy' : Reachable f y0 (vadd y (vscale (sub s' s) k)))
      by (eapply Reachable_incr; eassumption).
    constructor; [exact Hy' | exact (IH _ _ _ Hy' Er)].
Qed.
Lemma Euler_by_increments : odeint_by_increments (Euler World).
Proof.
  intros f y0 ts w sol. simpl. unfold euler_odeint.
  destruct ts as [|s0 ts]; [discriminate|].
  destruct (euler_rows f y0 s0 ts) as [r|] eqn:Er; [|discriminate].
  simpl. intros E. injection E as <-. simpl.
  constructor; [apply Reachable_init|].
  exact (euler_rows_reachable ts s0 (Reachable_init f y0) Er).
Qed.
End EulerFacts.

(** ** The integrator of the specification *)

Section RungeKuttaFacts.
Context {A World : Type} `{Num A} `{Ord A}.
Local Open Scope num_scope.

Lemma increasing_by_nth (l : list A) (d : A) :
  (forall i, (S i < length l)%nat ->
             num_ltb (nth i l d) (nth (S i) l d) = true) ->
  increasing l = true.
Proof.
  induction l as [|a [|b l] IH]; intros Hl; try reflexivity.
  change (num_ltb a b && increasing (b :: l) = true).
  apply andb_true_intro. split.
  - apply (Hl 0%nat). simpl. lia.
  - apply IH. intros i Hi. apply (Hl (S i)). simpl in *. lia.
Qed.

Lemma rk4_step_total (f : list A -> A -> option (list A)) (n : nat) :
  (forall y s, length y = n -> exists k, f y s = Some k /\ length k = n) ->
  forall y s h, length y = n ->
    exists y', rk4_step f y s h = Some y' /\ length y' = n.
Proof.
  intros Hf y s h Hy. unfold rk4_step.
  assert (Hadd : forall u c k, length u = n -> length k = n ->
                               length (vadd u (vscale c k)) = n)
    by (intros u c k Hu Hk; rewrite vadd_vscale_length; congruence).
  destruct (Hf y s Hy) as [k1 [-> L1]].
  destruct (Hf _ (s + h / of_Z 2) (Hadd y (h / of_Z 2) k1 Hy L1))
    as [k2 [-> L2]].
  destruct (Hf _ (s + h / of_Z 2) (Hadd y (h / of_Z 2) k2 Hy L2))
    as [k3 [-> L3]].
  destruct (Hf _ (s + h) (Hadd y h k3 Hy L3)) as [k4 [-> L4]].
  eexists. split; [reflexivity|].
  repeat apply Hadd; assumption.
Qed.

Lemma rk4_rows_spec (f : list A -> A -> option (list A)) (n : nat) (d : A) :
  (forall y s, length y = n -> exists k, f y s = Some k /\ length k = n) ->
  forall ts y s, length y = n ->
    exists r,
      rk4_rows f y s ts = Some r /\ length r = length ts /\
      Forall (fun row => length row = n) r /\
      forall i, (i < length ts)%nat ->
        rk4_step f (nth i (y :: r) []) (nth i (s :: ts) d)
                 (nth i ts d - nth i (s :: ts) d)
        = Some (nth i r []).
Proof.
  intros Hf. induction ts as [|s' ts IH]; intros y s Hy.
  - exists []. simpl. repeat split; try constructor. intros i Hi. lia.
  - destruct (rk4_step_total f Hf y s (s' - s) Hy) as [y' [Ey Hy']].
    destruct (IH y' s' Hy') as [r [Er [Lr [Hall Hchain]]]].
    exists (y' :: r). simpl rk4_rows. rewrite Ey, Er. simpl.
    split; [reflexivity|]. split; [congruence|].
    split; [constructor; assumption|].
    intros [|i] Hi; [exact Ey|].
    apply (Hchain i). lia.
Qed.

Lemma rk4_odeint_spec (f : list A -> A -> option (list A))
    (y0 ts : list A) (w : World) (d : A) :
  (forall y s, length y = length y0 ->
               exists k, f y s = Some k /\ length k = length y0) ->
  (2 <= length ts)%nat -> increasing ts = true ->
  exists r,
    rk4_odeint f y0 ts w
    = (Some {| shape := (length ts, length y0); rows := y0 :: r |}, w) /\
    length (y0 :: r) = length ts /\
    Forall (fun row => length row = length y0) (y0 :: r) /\
    forall i, (S i < length ts)%nat ->
      rk4_step f (nth i (y0 :: r) []) (nth i ts d)
               (nth (S i) ts d - nth i ts d)
      = Some (nth (S i) (y0 :: r) []).
Proof.
  intros Hf Hlen Hinc.
  destruct ts as [|s0 [|s1 ts]]; simpl in Hlen; try lia.
  destruct (rk4_rows_spec f d Hf (s1 :: ts) y0 s0 eq_refl)
    as [r [Er [Lr [Hall Hchain]]]].
  exists r. unfold rk4_odeint. rewrite Hinc, Er.
  split; [reflexivity|].
  split; [simpl in *; congruence|].
  split; [constructor; [reflexivity | exact Hall]|].
  intros i Hi. apply (Hchain i). simpl in *. lia.
Qed.

(** With a derivative function that raises at the initial state the
    integrator raises, whatever the grid. *)
Lemma rk4_odeint_raises (f : list A -> A -> option (list A))
    (y0 ts : list A) (w : World) :
  (forall s, f y0 s = None) -> rk4_odeint f y0 ts w = (None, w).
Proof.
  intros Hf. unfold rk4_odeint.
  destruct ts as [|s0 [|s1 ts]]; try reflexivity.
  assert (E : rk4_rows f y0 s0 (s1 :: ts) = None)
    by (simpl; unfold rk4_step; rewrite Hf; reflexivity).
  rewrite E. destruct (increasing _); reflexivity.
Qed.

Lemma rk4_step_reachable (f : list A -> A -> option (list A))
    (y0 y y' : list A) (s h : A) :
  Reachable f y0 y -> rk4_step f y s h = Some y' -> Reachable f y0 y'.
Proof.
  intros Hy. unfold rk4_step.
  destruct (f y s) as [k1|] eqn:E1; [|discriminate].
  destruct (f (vadd y (vscale (h / of_Z 2) k1)) (s + h / of_Z 2))
    as [k2|] eqn:E2; [|discriminate].
  destruct (f (vadd y (vscale (h / of_Z 2) k2)) (s + h / of_Z 2))
    as [k3|] eqn:E3; [|discriminate].
  destruct (f (vadd y (vscale h k3)) (s + h)) as [k4|] eqn:E4;
    [|discriminate].
  intros E. injection E as <-.
  assert (H1 : Reachable f y0 (vadd y (vscale (h / of_Z 2) k1)))
    by (eapply Reachable_incr; eassumption).
  assert (H2 : Reachable f y0 (vadd y (vscale (h / of_Z 2) k2)))
    by (eapply Reachable_incr; eassumption).
  assert (H3 : Reachable f y0 (vadd y (vscale h k3)))
    by (eapply Reachable_incr; eassumption).
  eapply Reachable_incr; [|exact H3|exact E4].
  eapply Reachable_incr; [|exact H2|exact E3].
  eapply Reachable_incr; [|exact H1|exact E2].
  eapply Reachable_incr; [exact Hy|exact Hy|exact E1].
Qed.

Lemma rk4_rows_reachable (f : list A -> A -> option (list A))
    (y0 : list A) :
  forall ts y s r,
    Reachable f y0 y -> rk4_rows f y s ts = Some r ->
    Forall (Reachable f y0) r.
Proof.
  induction ts as [|s' ts IH]; intros y s r Hy E; simpl in E.
  - injection E as <-. constructor.
  - destruct (rk4_step f y s (s' - s)) as [y'|] eqn:Ey; [|discriminate].
    destruct (rk4_rows f y' s' ts) as [r'|] eqn:Er; [|discriminate].
    injection E as <-.
    pose proof (rk4_step_reachable _ _ Hy Ey) as Hy'.
    constructor; [exact Hy' | exact (IH _ _ _ Hy' Er)].
Qed.

Lemma RK4_by_increments : odeint_by_increments (RK4 World).
Proof.
  intros f y0 ts w sol. simpl. unfold rk4_odeint.
  destruct ts as [|s0 [|s1 ts]]; try discriminate.
  destruct (increasing _); [|discriminate].
  destruct (rk4_rows f y0 s0 (s1 :: ts)) as [r|] eqn:Er; [|discriminate].
  simpl. intros E. injection E as <-. simpl.
  constructor; [apply Reachable_init|].
  exact (rk4_rows_reachable (s1 :: ts) s0 (Reachable_init f y0) Er).
Qed.

(** Series and rows of an array. *)
Lemma series_nth (rs : list (list A)) (j i : nat) (z : A) :
  (i < length rs)%nat ->
  nth i (map (fun r => nth j r z) rs) z = nth j (nth i rs []) z.
Proof.
  intros Hi.
  rewrite (nth_indep _ z (nth j [] z)) by (rewrite length_map; exact Hi).
  apply (map_nth (fun r => nth j r z)).
Qed.

Lemma row_of_three (r : list A) (z : A) :
  length r = 3%nat -> r = [nth 0 r z; nth 1 r z; nth 2 r z].
Proof.
  destruct r as [|a [|b [|c [|e l]]]]; try discriminate. reflexivity.
Qed.

Lemma row_of_four (r : list A) (z : A) :
  length r = 4%nat -> r = [nth 0 r z; nth 1 r z; nth 2 r z; nth 3 r z].
Proof.
  destruct r as [|a [|b [|c [|e [|g l]]]]]; try discriminate. reflexivity.
Qed.
End RungeKuttaFacts.

(** ** The drivers run with the integrator of the specification *)

Section RungeKuttaDriver.
Context {A World : Type} `{Num A} `{Ord A}.

Lemma rows_nth_length (rs : list (list A)) (n i : nat) :
  Forall (fun row => length row = n) rs -> (i < length rs)%nat ->
  length (nth i rs []) = n.
Proof.
  intros Hall Hi. rewrite Forall_forall in Hall.
  apply Hall. apply nth_In. exact Hi.
Qed.

Lemma sird_shape_generic :
  increasing (MODELO_SIRD.t (A := A)) = true ->
  nth 0 (MODELO_SIRD.t (A := A)) (of_Z 0) = of_Z 0 ->
  sird_shape_invariant A World.
Proof.
  intros Hinc H0t beta rho delta alpha lambda_ w.
  assert (Hlen : length (MODELO_SIRD.t (A := A)) = 160%nat)
    by apply linspace_length.
  destruct (rk4_odeint_spec
              (fun y s => sird_model y s beta rho delta alpha lambda_)
              MODELO_SIRD.y0 MODELO_SIRD.t w (of_Z 0)
              (fun y s => sird_model_total beta rho delta alpha lambda_ y s)
              ltac:(rewrite Hlen; lia) Hinc)
    as [r [E [Lr [Hall Hchain]]]].
  rewrite Hlen in Lr, Hchain.
  set (rs := MODELO_SIRD.y0 :: r) in *.
  exists (map (fun row => nth 0 row (of_Z 0)) rs),
         (map (fun row => nth 1 row (of_Z 0)) rs),
         (map (fun row => nth 2 row (of_Z 0)) rs).
  cbv zeta.
  split.
  { unfold MODELO_SIRD.update_graph, bind.
    change (odeint (Integrate := RK4 World)) with (rk4_odeint (World := World)).
    rewrite E. reflexivity. }
  split; [exact Hlen|].
  rewrite !length_map.
  split; [exact Lr|]. split; [exact Lr|]. split; [exact Lr|].
  split; [exact H0t|].
  split; [reflexivity|].
  intros i Hi.
  rewrite !series_nth by lia.
  rewrite <- !row_of_three
    by (apply (rows_nth_length (n := 3) Hall); lia).
  apply Hchain. exact Hi.
Qed.

Lemma slird_shape_generic :
  increasing (MODELO_SLIRD.t (A := A)) = true ->
  nth 0 (MODELO_SLIRD.t (A := A)) (of_Z 0) = of_Z 0 ->
  slird_shape_invariant A World.
Proof.
  intros Hinc H0t beta rho delta alpha lambda_ gamma w.
  assert (Hlen : length (MODELO_SLIRD.t (A := A)) = 160%nat)
    by apply linspace_length.
  destruct (rk4_odeint_spec
              (fun y s => slird_model y s beta rho delta alpha lambda_ gamma)
              MODELO_SLIRD.y0 MODELO_SLIRD.t w (of_Z 0)
              (fun y s =>
                 slird_model_total beta rho delta alpha lambda_ gamma y s)
              ltac:(rewrite Hlen; lia) Hinc)
    as [r [E [Lr [Hall Hchain]]]].
  rewrite Hlen in Lr, Hchain.
  set (rs := MODELO_SLIRD.y0 :: r) in *.
  exists (map (fun row => nth 0 row (of_Z 0)) rs),
         (map (fun row => nth 1 row (of_Z 0)) rs),
         (map (fun row => nth 2 row (of_Z 0)) rs),
         (map (fun row => nth 3 row (of_Z 0)) rs).
  cbv zeta.
  split.
  { unfold MODELO_SLIRD.update_graph, bind.
    change (odeint (Integrate := RK4 World)) with (rk4_odeint (World := World)).
    rewrite E. reflexivity. }
  split; [exact Hlen|].
  rewrite !length_map.
  split; [exact Lr|]. split; [exact Lr|].
  split; [exact Lr|]. split; [exact Lr|].
  split; [exact H0t|].
  split; [reflexivity|].
  intros i Hi.
  rewrite !series_nth by lia.
  rewrite <- !row_of_four
    by (apply (rows_nth_length (n := 4) Hall); lia).
  apply Hchain. exact Hi.
Qed.
End RungeKuttaDriver.

Lemma R_num_ltb (x y : R) : (x < y)%R -> num_ltb x y = true.
Proof.
  intros Hxy. simpl. destruct (Rlt_dec x y); [reflexivity | contradiction].
Qed.

Lemma time_grid_R_increasing :
  increasing (MODELO_SIRD.t (A := R)) = true /\
  increasing (MODELO_SLIRD.t (A := R)) = true.
Proof.
  assert (Hinc : increasing (linspace (A := R) 0%R 160%R 160) = true).
  { apply (increasing_by_nth _ 0%R). intros i Hi.
    rewrite linspace_length in Hi.
    apply R_num_ltb. rewrite !linspace_R_nth by lia.
    replace (INR (160 - 1)) with 159%R by (simpl; lra).
    rewrite S_INR. lra. }
  split; exact Hinc.
Qed.

Lemma time_grid_float_increasing :
  increasing (MODELO_SIRD.t (A := float)) = true /\
  increasing (MODELO_SLIRD.t (A := float)) = true.
Proof. split; vm_compute; reflexivity. Qed.

Lemma time_grid_float_start :
  nth 0 (MODELO_SIRD.t (A := float)) 0%float = 0%float /\
  nth 0 (MODELO_SLIRD.t (A := float)) 0%float = 0%float.
Proof. split; vm_compute; reflexivity. Qed.

(** ** Parameters that may be [None] *)

Section NoneFacts.
Context {A World : Type} `{Num A} {Int : Integrate A World}.

Lemma sird_model_py_numbers (y : list A) (s b r d a l : A) :
  sird_model_py y s (Some b) (Some r) (Some d) (Some a) (Some l)
  = sird_model y s b r d a l.
Proof. destruct y as [|? [|? [|? [|? ?]]]]; reflexivity. Qed.

Lemma slird_model_py_numbers (y : list A) (s b r d a l g : A) :
  slird_model_py y s (Some b) (Some r) (Some d) (Some a) (Some l) (Some g)
  = slird_model y s b r d a l g.
Proof. destruct y as [|? [|? [|? [|? [|? ?]]]]]; reflexivity. Qed.

Lemma sird_model_py_none (y : list A) (s : A)
    (beta rho delta alpha lambda_ : option A) :
  beta = None \/ rho = None \/ delta = None \/ alpha = None \/
  lambda_ = None ->
  sird_model_py y s beta rho delta alpha lambda_ = None.
Proof.
  intros Hn.
  destruct y as [|? [|? [|? [|? ?]]]]; try reflexivity.
  destruct beta, rho, delta, alpha, lambda_; try reflexivity.
  exfalso. destruct Hn as [Hn|[Hn|[Hn|[Hn|Hn]]]]; discriminate.
Qed.

Lemma slird_model_py_none (y : list A) (s : A)
    (beta rho delta alpha lambda_ gamma : option A) :
  beta = None \/ rho = None \/ delta = None \/ alpha = None \/
  lambda_ = None \/ gamma = None ->
  slird_model_py y s beta rho delta alpha lambda_ gamma = None.
Proof.
  intros Hn.
  destruct y as [|? [|? [|? [|? [|? ?]]]]]; try reflexivity.
  destruct beta, rho, delta, alpha, lambda_, gamma; try reflexivity.
  exfalso. destruct Hn as [Hn|[Hn|[Hn|[Hn|[Hn|Hn]]]]]; discriminate.
Qed.

Lemma sird_update_graph_py_numbers (b r d a l : A) :
  MODELO_SIRD.update_graph_py (Some b) (Some r) (Some d) (Some a) (Some l)
  = MODELO_SIRD.update_graph b r d a l.
Proof. reflexivity. Qed.

Lemma slird_update_graph_py_numbers (b r d a l g : A) :
  MODELO_SLIRD.update_graph_py (Some b) (Some r) (Some d) (Some a) (Some l)
                               (Some g)
  = MODELO_SLIRD.update_graph b r d a l g.
Proof. reflexivity. Qed.
End NoneFacts.

Example sird_model_default_float :
  sird_model (A := float) [0.99; 0.01; 0]%float 0%float
             0.3%float 0.1%float 0.05%float 0.01%float 0.01%float
  = Some [0.00703; 0.00147; 0.001]%float.
Proof. vm_compute. reflexivity. Qed.

(** ** The derivative laws *)

(** C1. For every state [(S, I, R)], time [t] and parameters, whatever the
    number type, [sird_model] returns exactly
    [alpha - beta*S*I + lambda*R; beta*S*I - delta*I - rho*I; rho*I - lambda*R],
    in that order. *)
Theorem sird_model_law :
  forall (A : Type) (N : Num A) (S_ I_ R_ t beta rho delta alpha lambda_ : A),
    sird_model [S_; I_; R_] t beta rho delta alpha lambda_
    = Some [ alpha - beta * S_ * I_ + lambda_ * R_ ;
             beta * S_ * I_ - delta * I_ - rho * I_ ;
             rho * I_ - lambda_ * R_ ]%num.
Proof. intros; reflexivity. Qed.

(** C2. For every state [(S, L, I, R)], time [t] and parameters, whatever
    the number type, [slird_model] returns exactly
    [alpha - beta*S*I + lambda*R; beta*S*I - gamma*L;
     gamma*L - delta*I - rho*I; rho*I - lambda*R], in that order. *)
Theorem slird_model_law :
  forall (A : Type) (N : Num A)
         (S_ L_ I_ R_ t beta rho delta alpha lambda_ gamma : A),
    slird_model [S_; L_; I_; R_] t beta rho delta alpha lambda_ gamma
    = Some [ alpha - beta * S_ * I_ + lambda_ * R_ ;
             beta * S_ * I_ - gamma * L_ ;
             gamma * L_ - delta * I_ - rho * I_ ;
             rho * I_ - lambda_ * R_ ]%num.
Proof. intros; reflexivity. Qed.

(** ** Population balance *)

(** C10, amended. In exact arithmetic (any commutative ring of numbers),
    for every state, time and parameters, the components returned by
    [sird_model] add up to [alpha - delta*I], and so do those returned
    by [slird_model]: the beta, rho, lambda and gamma terms cancel. *)
Theorem derivative_sum_net_inflow :
  forall (A : Type) (N : Num A), NumRing A ->
  forall (S_ L_ I_ R_ t beta rho delta alpha lambda_ gamma : A),
    option_map vsum (sird_model [S_; I_; R_] t beta rho delta alpha lambda_)
    = Some (alpha - delta * I_)%num /\
    option_map vsum
      (slird_model [S_; L_; I_; R_] t beta rho delta alpha lambda_ gamma)
    = Some (alpha - delta * I_)%num.
Proof.
  intros A N Rth S_ L_ I_ R_ t beta rho delta alpha lambda_ gamma.
  split.
  - destruct (sird_model [S_; I_; R_] t beta rho delta alpha lambda_)
      as [d|] eqn:E; [|discriminate].
    simpl. f_equal. exact (sird_model_sum Rth _ _ _ _ _ _ _ E).
  - destruct (slird_model [S_; L_; I_; R_] t beta rho delta alpha lambda_ gamma)
      as [d|] eqn:E; [|discriminate].
    simpl. f_equal. exact (slird_model_sum Rth _ _ _ _ _ _ _ _ E).
Qed.

Lemma derivative_sum_net_inflow_witness :
  option_map vsum
    (sird_model (A := R) [99/100; 1/100; 0]%R 0%R
                (3/10)%R (1/10)%R (5/100)%R (1/100)%R (1/100)%R)
  = Some (1/100 - 5/100 * (1/100))%R /\
  option_map vsum
    (slird_model (A := R) [99/100; 0; 1/100; 0]%R 0%R
                 (3/10)%R (1/10)%R (5/100)%R (1/100)%R (1/100)%R (1/10)%R)
  = Some (1/100 - 5/100 * (1/100))%R.
Proof.
  exact (@derivative_sum_net_inflow R Num_R R_NumRing
           (99/100)%R 0%R (1/100)%R 0%R 0%R
           (3/10)%R (1/10)%R (5/100)%R (1/100)%R (1/100)%R (1/10)%R).
Defined.

(** C10, as stated, fails on binary64, the numbers the code computes
    with: at the default request the components returned by
    [sird_model] add up to [0.0095000000000000015], which is not the
    binary64 value of [alpha - delta*I]. *)
Lemma derivative_sum_binary64 :
  option_map vsum
    (sird_model (A := float) [0.99; 0.01; 0]%float 0%float
                0.3%float 0.1%float 0.05%float 0.01%float 0.01%float)
  = Some 0.0095000000000000015%float /\
  (0.01 - 0.05 * 0.01)%float = 0.0095%float /\
  PrimFloat.eqb 0.0095000000000000015%float (0.01 - 0.05 * 0.01)%float
  = false /\
  option_map vsum
    (sird_model (A := float) [0.99; 0.01; 0]%float 0%float
                0.3%float 0.1%float 0.05%float 0.01%float 0.01%float)
  <> Some (0.01 - 0.05 * 0.01)%float.
Proof.
  repeat split; try (vm_compute; reflexivity).
  intros E.
  apply (f_equal (fun o => match o with
                           | Some v => PrimFloat.eqb v 0.0095%float
                           | None => true
                           end)) in E.
  vm_compute in E. discriminate.
Qed.

(** C3, as stated, fails: with [alpha = 0] and [lambda = 0] but a positive
    mortality rate the derivative components do not add up to zero.  At
    the default state and rates the sum is [-0.0005]. *)
Lemma closed_system_counterexample :
  exists d,
    sird_model (A := R) [99/100; 1/100; 0]%R 0%R
               (3/10)%R (1/10)%R (5/100)%R 0%R 0%R = Some d /\
    vsum d = (- (5/10000))%R /\ vsum d <> 0%R.
Proof.
  eexists. split; [reflexivity|].
  unfold vsum; simpl. split; lra.
Qed.

(** C3, amended. With [alpha = 0] and [lambda = 0] the derivative
    components add up to [-delta*I] in both variants.  When moreover
    [delta = 0] the system is closed: the components add up to zero,
    and every state reached from the initial state by increments
    [h * f(y', s)], so every row returned by an integrator that
    works by increments, has the total of the initial state. *)
Theorem closed_system_without_deaths :
  forall (A : Type) (N : Num A), NumRing A ->
  forall (S_ L_ I_ R_ t beta rho delta gamma : A),
    let z := of_Z 0 in
    option_map vsum (sird_model [S_; I_; R_] t beta rho delta z z)
    = Some (z - delta * I_)%num /\
    option_map vsum (slird_model [S_; L_; I_; R_] t beta rho delta z z gamma)
    = Some (z - delta * I_)%num /\
    option_map vsum (sird_model [S_; I_; R_] t beta rho z z z) = Some z /\
    option_map vsum (slird_model [S_; L_; I_; R_] t beta rho z z z gamma)
    = Some z /\
    (forall y,
        Reachable (fun y s => sird_model y s beta rho z z z) [S_; I_; R_] y ->
        vsum y = vsum [S_; I_; R_]) /\
    (forall y,
        Reachable (fun y s => slird_model y s beta rho z z z gamma)
                  [S_; L_; I_; R_] y ->
        vsum y = vsum [S_; L_; I_; R_]) /\
    (forall (World : Type) (Int : Integrate A World),
        odeint_by_increments Int ->
        forall ts w,
          (forall sol,
              fst (odeint (fun y s => sird_model y s beta rho z z z)
                          [S_; I_; R_] ts w) = Some sol ->
              Forall (fun row => vsum row = vsum [S_; I_; R_]) (rows sol)) /\
          (forall sol,
              fst (odeint (fun y s => slird_model y s beta rho z z z gamma)
                          [S_; L_; I_; R_] ts w) = Some sol ->
              Forall (fun row => vsum row = vsum [S_; L_; I_; R_])
                     (rows sol))).
Proof.
  intros A N Rth S_ L_ I_ R_ t beta rho delta gamma z.
  assert (Hsird : forall y,
             Reachable (fun y s => sird_model y s beta rho z z z)
                       [S_; I_; R_] y ->
             vsum y = vsum [S_; I_; R_]).
  { intros y Hy.
    exact (proj2 (sird_total_conserved Rth beta rho z
                    (y0 := [S_; I_; R_]) eq_refl Hy)). }
  assert (Hslird : forall y,
             Reachable (fun y s => slird_model y s beta rho z z z gamma)
                       [S_; L_; I_; R_] y ->
             vsum y = vsum [S_; L_; I_; R_]).
  { intros y Hy.
    exact (proj2 (slird_total_conserved Rth beta rho z gamma
                    (y0 := [S_; L_; I_; R_]) eq_refl Hy)). }
  split; [|split; [|split; [|split; [|split; [|split]]]]].
  - simpl. f_equal.
    exact (sird_model_sum Rth [S_; I_; R_] t beta rho delta z z eq_refl).
  - simpl. f_equal.
    exact (slird_model_sum Rth [S_; L_; I_; R_] t beta rho delta z z gamma
                           eq_refl).
  - simpl. f_equal.
    rewrite (sird_model_sum Rth [S_; I_; R_] t beta rho z z z eq_refl).
    apply (zero_minus_zero_mul Rth).
  - simpl. f_equal.
    rewrite (slird_model_sum Rth [S_; L_; I_; R_] t beta rho z z z gamma
                             eq_refl).
    apply (zero_minus_zero_mul Rth).
  - exact Hsird.
  - exact Hslird.
  - intros World Int Hinc ts w. split; intros sol E.
    + eapply Forall_impl; [exact Hsird | exact (Hinc _ _ _ _ _ E)].
    + eapply Forall_impl; [exact Hslird | exact (Hinc _ _ _ _ _ E)].
Qed.

Lemma closed_system_without_deaths_witness :
  option_map vsum
    (sird_model (A := R) [99/100; 1/100; 0]%R 0%R (3/10)%R (1/10)%R 0%R 0%R 0%R)
  = Some 0%R /\
  exists sol,
    fst (odeint (Integrate := Euler unit)
           (fun y s => sird_model (A := R) y s (3/10)%R (1/10)%R 0%R 0%R 0%R)
           [99/100; 1/100; 0]%R [0; 1; 2]%R tt) = Some sol /\
    length (rows sol) = 3%nat /\
    Forall (fun row => vsum row = vsum [99/100; 1/100; 0]%R) (rows sol).
Proof.
  pose proof (@closed_system_without_deaths R Num_R R_NumRing
                (99/100)%R 0%R (1/100)%R 0%R 0%R (3/10)%R (1/10)%R 0%R 0%R)
    as [_ [_ [Hsum [_ [_ [_ Hint]]]]]].
  split; [exact Hsum|].
  eexists. split; [reflexivity|]. split; [reflexivity|].
  apply (proj1 (Hint unit (Euler unit) Euler_by_increments [0; 1; 2]%R tt)).
  reflexivity.
Defined.

(** ** Disease-free equilibrium *)

(** C5, as stated, fails on binary64: with finite parameters and a
    finite state that has [I = 0] (and [L = 0]), a product that
    overflows makes the derivative of the infected (and of the latent)
    compartment NaN rather than [0]. *)
Lemma disease_free_counterexample :
  sird_model (A := float) [1e200; 0; 0]%float 0%float
             1e200%float 0.1%float 0.05%float 0.01%float 0.01%float
  = Some [nan; nan; 0]%float /\
  slird_model (A := float) [1e200; 0; 0; 0]%float 0%float
              1e200%float 0.1%float 0.05%float 0.01%float 0.01%float
              0.1%float
  = Some [nan; nan; 0; 0]%float /\
  PrimFloat.is_finite 1e200%float = true /\
  PrimFloat.eqb nan 0%float = false.
Proof. repeat split; vm_compute; reflexivity. Qed.

(** C5, amended. In exact arithmetic, for every parameter set: at a
    state with [I = 0] the SIRD derivative of [I] is [0]; at a state with [L = 0] and
    [I = 0] the SLIRD derivatives of [L] and [I] are [0]; hence every
    state reached from such an initial state by increments
    [h * f(y', s)], so every row returned by an integrator that works by
    increments, still has [I = 0] (and [L = 0]). *)
Theorem disease_free_equilibrium :
  forall (A : Type) (N : Num A), NumRing A ->
  forall (S_ R_ t beta rho delta alpha lambda_ gamma : A),
    let z := of_Z 0 in
    (exists dS dR,
        sird_model [S_; z; R_] t beta rho delta alpha lambda_
        = Some [dS; z; dR]) /\
    (exists dS dR,
        slird_model [S_; z; z; R_] t beta rho delta alpha lambda_ gamma
        = Some [dS; z; z; dR]) /\
    (forall y,
        Reachable (fun y s => sird_model y s beta rho delta alpha lambda_)
                  [S_; z; R_] y ->
        exists S' R', y = [S'; z; R']) /\
    (forall y,
        Reachable (fun y s =>
                     slird_model y s beta rho delta alpha lambda_ gamma)
                  [S_; z; z; R_] y ->
        exists S' R', y = [S'; z; z; R']) /\
    (forall (World : Type) (Int : Integrate A World),
        odeint_by_increments Int ->
        forall ts w,
          (forall sol,
              fst (odeint (fun y s =>
                             sird_model y s beta rho delta alpha lambda_)
                          [S_; z; R_] ts w) = Some sol ->
              Forall (fun row => exists S' R', row = [S'; z; R'])
                     (rows sol)) /\
          (forall sol,
              fst (odeint (fun y s =>
                             slird_model y s beta rho delta alpha lambda_ gamma)
                          [S_; z; z; R_] ts w) = Some sol ->
              Forall (fun row => exists S' R', row = [S'; z; z; R'])
                     (rows sol))).
Proof.
  intros A N Rth S_ R_ t beta rho delta alpha lambda_ gamma z.
  assert (Hi : forall b a d r : A,
             (b * a * z - d * z - r * z)%num = z)
    by (intros; apply (infected_rate_at_zero Rth)).
  assert (Hl : forall b a g : A, (b * a * z - g * z)%num = z)
    by (intros; apply (latent_rate_at_zero Rth)).
  assert (Hr : forall g d r : A, (g * z - d * z - r * z)%num = z)
    by (intros; apply (slird_infected_rate_at_zero Rth)).
  split; [|split; [|split; [|split]]].
  - eexists; eexists. simpl. rewrite Hi. reflexivity.
  - eexists; eexists. simpl. rewrite Hl, Hr. reflexivity.
  - intros y. apply (sird_disease_free Rth).
  - intros y. apply (slird_disease_free Rth).
  - intros World Int Hinc ts w. split; intros sol E.
    + eapply Forall_impl; [|exact (Hinc _ _ _ _ _ E)].
      intros y. apply (sird_disease_free Rth).
    + eapply Forall_impl; [|exact (Hinc _ _ _ _ _ E)].
      intros y. apply (slird_disease_free Rth).
Qed.

Lemma disease_free_equilibrium_witness :
  (exists dS dR,
      sird_model (A := R) [1; 0; 0]%R 0%R
                 (3/10)%R (1/10)%R (5/100)%R (1/100)%R (1/100)%R
      = Some [dS; 0%R; dR]) /\
  exists sol,
    fst (odeint (Integrate := Euler unit)
           (fun y s => sird_model (A := R) y s
                         (3/10)%R (1/10)%R (5/100)%R (1/100)%R (1/100)%R)
           [1; 0; 0]%R [0; 1; 2]%R tt) = Some sol /\
    length (rows sol) = 3%nat /\
    Forall (fun row => exists S' R', row = [S'; 0%R; R']) (rows sol).
Proof.
  pose proof (@disease_free_equilibrium R Num_R R_NumRing
                1%R 0%R 0%R (3/10)%R (1/10)%R (5/100)%R (1/100)%R (1/100)%R
                (1/10)%R)
    as [Hd [_ [_ [_ Hint]]]].
  split; [exact Hd|].
  eexists. split; [reflexivity|]. split; [reflexivity|].
  apply (proj1 (Hint unit (Euler unit) Euler_by_increments [0; 1; 2]%R tt)).
  reflexivity.
Defined.

(** ** The driver's fixed inputs *)

(** C8. Whatever the request, the SIRD driver integrates from
    [(0.99, 0.01, 0.0)] and the SLIRD driver from [(0.99, 0.0, 0.01, 0.0)];
    in both the compartments add up to exactly [1], as real numbers and
    as binary64 numbers. *)
Theorem default_initial_condition :
  (forall (A World : Type) (N : Num A) (Int : Integrate A World)
          (beta rho delta alpha lambda_ gamma : A),
      MODELO_SIRD.update_graph beta rho delta alpha lambda_
      = (solution <- odeint
                       (fun y s => sird_model y s beta rho delta alpha lambda_)
                       [dec 99 2; dec 1 2; dec 0 1] MODELO_SIRD.t ;;
         '(S_, I_, R_) <- unpack3 (T solution) ;;
         ret (MODELO_SIRD.fig S_ I_ R_)) /\
      MODELO_SLIRD.update_graph beta rho delta alpha lambda_ gamma
      = (solution <- odeint
                       (fun y s =>
                          slird_model y s beta rho delta alpha lambda_ gamma)
                       [dec 99 2; dec 0 1; dec 1 2; dec 0 1] MODELO_SLIRD.t ;;
         '(S_, L_, I_, R_) <- unpack4 (T solution) ;;
         ret (MODELO_SLIRD.fig S_ L_ I_ R_))) /\
  MODELO_SIRD.y0 (A := R) = [99/100; 1/100; 0]%R /\
  MODELO_SLIRD.y0 (A := R) = [99/100; 0; 1/100; 0]%R /\
  vsum (MODELO_SIRD.y0 (A := R)) = 1%R /\
  vsum (MODELO_SLIRD.y0 (A := R)) = 1%R /\
  MODELO_SIRD.y0 (A := float) = [0.99; 0.01; 0]%float /\
  MODELO_SLIRD.y0 (A := float) = [0.99; 0; 0.01; 0]%float /\
  vsum (MODELO_SIRD.y0 (A := float)) = 1%float /\
  vsum (MODELO_SLIRD.y0 (A := float)) = 1%float.
Proof.
  split; [intros; split; reflexivity|].
  assert (HS : MODELO_SIRD.y0 (A := R) = [99/100; 1/100; 0]%R).
  { unfold MODELO_SIRD.y0, MODELO_SIRD.S0, MODELO_SIRD.I0, MODELO_SIRD.R0, dec.
    simpl. repeat f_equal; lra. }
  assert (HL : MODELO_SLIRD.y0 (A := R) = [99/100; 0; 1/100; 0]%R).
  { unfold MODELO_SLIRD.y0, MODELO_SLIRD.S0, MODELO_SLIRD.L0,
      MODELO_SLIRD.I0, MODELO_SLIRD.R0, dec.
    simpl. repeat f_equal; lra. }
  split; [exact HS|]. split; [exact HL|].
  split; [rewrite HS; unfold vsum; simpl; lra|].
  split; [rewrite HL; unfold vsum; simpl; lra|].
  repeat split; vm_compute; reflexivity.
Qed.

(** C9. The time grid of both drivers is [linspace(0, 160, 160)]: 160
    samples, the first [0], the last [160], consecutive samples
    [160/159] apart and strictly increasing (as real numbers); on
    binary64 it has 160 strictly increasing samples from [0] to [160].
    Every trace of a figure carries this grid as its abscissa. *)
Theorem time_grid :
  let t := MODELO_SIRD.t (A := R) in
  MODELO_SLIRD.t (A := R) = t /\
  length t = 160%nat /\
  nth 0 t 0%R = 0%R /\
  nth 159 t 0%R = 160%R /\
  (forall i, (i < 159)%nat -> (nth (S i) t 0 - nth i t 0 = 160 / 159)%R) /\
  (forall i j, (i < j < 160)%nat -> (nth i t 0 < nth j t 0)%R) /\
  (let tf := MODELO_SIRD.t (A := float) in
   MODELO_SLIRD.t (A := float) = tf /\
   length tf = 160%nat /\
   nth 0 tf 0%float = 0%float /\
   nth 159 tf 0%float = 160%float /\
   increasingb tf = true) /\
  (forall (A : Type) (N : Num A) (S_ L_ I_ R_ : list A),
      Forall (fun tr => trace_x tr = MODELO_SIRD.t)
             (data (MODELO_SIRD.fig S_ I_ R_)) /\
      Forall (fun tr => trace_x tr = MODELO_SLIRD.t)
             (data (MODELO_SLIRD.fig S_ L_ I_ R_))).
Proof.
  intros t.
  assert (Hnth : forall i, (i < 160)%nat ->
                           nth i t 0%R = (INR i * (160 / 159))%R).
  { intros i Hi. unfold t, MODELO_SIRD.t.
    rewrite linspace_R_nth by lia.
    replace (INR (160 - 1)) with 159%R by (simpl; lra).
    simpl of_Z. lra. }
  split; [reflexivity|].
  split; [apply linspace_length|].
  split; [rewrite Hnth by lia; simpl; lra|].
  split; [exact (linspace_last (A := R) 0%R 160%R 0%R (num := 160)
                                ltac:(lia))|].
  split; [|split; [|split]].
  - intros i Hi. rewrite !Hnth by lia. rewrite S_INR. lra.
  - intros i j [Hij Hj]. rewrite !Hnth by lia.
    apply lt_INR in Hij. lra.
  - repeat split; vm_compute; reflexivity.
  - intros A N S_ L_ I_ R_. split; repeat constructor.
Qed.

Lemma time_grid_witness :
  (nth 4 (MODELO_SIRD.t (A := R)) 0 - nth 3 (MODELO_SIRD.t (A := R)) 0
   = 160 / 159)%R /\
  (nth 3 (MODELO_SIRD.t (A := R)) 0 < nth 7 (MODELO_SIRD.t (A := R)) 0)%R.
Proof.
  destruct time_grid as [_ [_ [_ [_ [Hstep [Hinc _]]]]]].
  split; [apply (Hstep 3%nat); lia | apply (Hinc 3%nat 7%nat); lia].
Defined.

(** ** Shape of the result *)

(** C6. Run with the integrator of the specification, over the real
    numbers and over binary64, both drivers keep the shape invariant for
    every parameter set: the call returns a figure whose series have
    the 160 samples of the grid, sample [i] belonging to grid point
    [i] (sample [i + 1] is the integrator's step from sample [i] over
    the interval from [t[i]] to [t[i + 1]]); the grid starts at [0];
    the first samples are the initial state exactly. *)
Theorem trajectory_shape :
  forall World : Type,
    sird_shape_invariant R World /\
    sird_shape_invariant float World /\
    slird_shape_invariant R World /\
    slird_shape_invariant float World.
Proof.
  intros World.
  destruct time_grid_R_increasing as [HR1 HR2].
  destruct time_grid_R_start as [SR1 SR2].
  destruct time_grid_float_increasing as [HF1 HF2].
  destruct time_grid_float_start as [SF1 SF2].
  split; [exact (sird_shape_generic HR1 SR1)|].
  split; [exact (sird_shape_generic HF1 SF1)|].
  split; [exact (slird_shape_generic HR2 SR2)|].
  exact (slird_shape_generic HF2 SF2).
Qed.

Lemma trajectory_shape_witness :
  exists S_ I_ R_ : list float,
    MODELO_SIRD.update_graph (Int := RK4 unit)
      0.3%float 0.1%float 0.05%float 0.01%float 0.01%float tt
    = (Some (MODELO_SIRD.fig S_ I_ R_), tt) /\
    length S_ = 160%nat /\
    [nth 0 S_ 0; nth 0 I_ 0; nth 0 R_ 0]%float = MODELO_SIRD.y0 /\
    rk4_step (fun y s => sird_model y s 0.3%float 0.1%float 0.05%float
                                    0.01%float 0.01%float)
             [nth 0 S_ 0; nth 0 I_ 0; nth 0 R_ 0]%float
             (nth 0 MODELO_SIRD.t 0%float)
             (nth 1 MODELO_SIRD.t 0 - nth 0 MODELO_SIRD.t 0)%float
    = Some [nth 1 S_ 0; nth 1 I_ 0; nth 1 R_ 0]%float.
Proof.
  destruct (proj1 (proj2 (trajectory_shape unit))
              0.3%float 0.1%float 0.05%float 0.01%float 0.01%float tt)
    as [S_ [I_ [R_ [E [_ [LS [_ [_ [_ [H0 Hstep]]]]]]]]]].
  exists S_, I_, R_.
  split; [exact E|]. split; [exact LS|]. split; [exact H0|].
  apply (Hstep 0%nat). lia.
Defined.

(** ** Parameter validation *)

(** C4, as stated, fails.  A request whose contact rate is NaN is not
    rejected: the driver integrates and returns a figure with three
    series of 160 samples (here with the integrator of the
    specification).  A
    request whose contact rate is missing ([None]) is not rejected
    before the integration begins: the integrator has been called once
    when the call raises. *)
Lemma nonfinite_parameter_counterexample :
  PrimFloat.is_nan nan = true /\
  option_map (fun fg => map (fun tr => length (trace_y tr)) (data fg))
    (fst (MODELO_SIRD.update_graph (A := float) (Int := RK4 unit)
            nan 0.1%float 0.05%float 0.01%float 0.01%float tt))
  = Some [160; 160; 160]%nat /\
  MODELO_SIRD.update_graph_py (A := float) (Int := Counting)
    None (Some 0.1%float) (Some 0.05%float) (Some 0.01%float)
    (Some 0.01%float) 0%nat
  = (None, 1%nat).
Proof. repeat split; vm_compute; reflexivity. Qed.

(** C4, amended. The drivers do no validation of their own.
    - For every parameter set of numbers, NaN and infinite values
      included, a driver returns no figure exactly when the integrator
      raises or returns an array that does not have three (SIRD), resp.
      four (SLIRD), columns; numbers reach the integrator as they are.
    - Run with the integrator of the specification, every binary64
      parameter set, NaN and infinities included, gets a complete
      figure (every series with 160 samples).
    - A parameter that is [None] makes the derivative function raise
      whenever it is evaluated; run with the integrator of the
      specification the call raises and returns no figure.
    - A call with a missing or an extra argument raises before the body
      runs, whatever the integrator. *)
Theorem driver_performs_no_validation :
  (forall (A World : Type) (N : Num A) (Int : Integrate A World)
          (beta rho delta alpha lambda_ gamma : A) (w : World),
      (fst (MODELO_SIRD.update_graph beta rho delta alpha lambda_ w) = None
       <-> fst (odeint (fun y s => sird_model y s beta rho delta alpha lambda_)
                       MODELO_SIRD.y0 MODELO_SIRD.t w) = None \/
           exists sol,
             fst (odeint (fun y s =>
                            sird_model y s beta rho delta alpha lambda_)
                         MODELO_SIRD.y0 MODELO_SIRD.t w) = Some sol /\
             snd (shape sol) <> 3%nat) /\
      (fst (MODELO_SLIRD.update_graph beta rho delta alpha lambda_ gamma w)
       = None
       <-> fst (odeint (fun y s =>
                          slird_model y s beta rho delta alpha lambda_ gamma)
                       MODELO_SLIRD.y0 MODELO_SLIRD.t w) = None \/
           exists sol,
             fst (odeint (fun y s =>
                            slird_model y s beta rho delta alpha lambda_ gamma)
                         MODELO_SLIRD.y0 MODELO_SLIRD.t w) = Some sol /\
             snd (shape sol) <> 4%nat) /\
      MODELO_SIRD.update_graph_py (Some beta) (Some rho) (Some delta)
                                  (Some alpha) (Some lambda_)
      = MODELO_SIRD.update_graph beta rho delta alpha lambda_ /\
      MODELO_SLIRD.update_graph_py (Some beta) (Some rho) (Some delta)
                                   (Some alpha) (Some lambda_) (Some gamma)
      = MODELO_SLIRD.update_graph beta rho delta alpha lambda_ gamma) /\
  (forall (World : Type) (beta rho delta alpha lambda_ gamma : float)
          (w : World),
      option_map (fun fg => map (fun tr => length (trace_y tr)) (data fg))
        (fst (MODELO_SIRD.update_graph (Int := RK4 World)
                beta rho delta alpha lambda_ w))
      = Some [160; 160; 160]%nat /\
      option_map (fun fg => map (fun tr => length (trace_y tr)) (data fg))
        (fst (MODELO_SLIRD.update_graph (Int := RK4 World)
                beta rho delta alpha lambda_ gamma w))
      = Some [160; 160; 160; 160]%nat) /\
  (forall (A World : Type) (N : Num A) (O : Ord A)
          (beta rho delta alpha lambda_ gamma : option A) (w : World),
      (beta = None \/ rho = None \/ delta = None \/ alpha = None \/
       lambda_ = None ->
       (forall y s, sird_model_py y s beta rho delta alpha lambda_ = None) /\
       MODELO_SIRD.update_graph_py (Int := RK4 World)
         beta rho delta alpha lambda_ w = (None, w)) /\
      (beta = None \/ rho = None \/ delta = None \/ alpha = None \/
       lambda_ = None \/ gamma = None ->
       (forall y s,
           slird_model_py y s beta rho delta alpha lambda_ gamma = None) /\
       MODELO_SLIRD.update_graph_py (Int := RK4 World)
         beta rho delta alpha lambda_ gamma w = (None, w))) /\
  (forall (A World : Type) (N : Num A) (Int : Integrate A World)
          (args : list (option A)) (w : World),
      (length args <> 5%nat ->
       MODELO_SIRD.call_update_graph args w = (None, w)) /\
      (length args <> 6%nat ->
       MODELO_SLIRD.call_update_graph args w = (None, w))).
Proof.
  split; [|split; [|split]].
  - intros A World N Int beta rho delta alpha lambda_ gamma w.
    split; [|split; [|split; reflexivity]].
    + unfold MODELO_SIRD.update_graph, bind.
      destruct (odeint _ MODELO_SIRD.y0 MODELO_SIRD.t w) as [[sol|] w'];
        simpl fst; [|split; [intros _; left; reflexivity | reflexivity]].
      unfold unpack3, T. simpl rows.
      destruct (snd (shape sol)) as [|[|[|[|n]]]] eqn:Hw; simpl;
        (split;
         [ intros E;
           first [ discriminate
                 | right; exists sol; split; [reflexivity | rewrite Hw; lia] ]
         | intros [E|[sol' [E Hw']]];
           first [ discriminate
                 | reflexivity
                 | injection E as <-; rewrite Hw in Hw'; lia ] ]).
    + unfold MODELO_SLIRD.update_graph, bind.
      destruct (odeint _ MODELO_SLIRD.y0 MODELO_SLIRD.t w) as [[sol|] w'];
        simpl fst; [|split; [intros _; left; reflexivity | reflexivity]].
      unfold unpack4, T. simpl rows.
      destruct (snd (shape sol)) as [|[|[|[|[|n]]]]] eqn:Hw; simpl;
        (split;
         [ intros E;
           first [ discriminate
                 | right; exists sol; split; [reflexivity | rewrite Hw; lia] ]
         | intros [E|[sol' [E Hw']]];
           first [ discriminate
                 | reflexivity
                 | injection E as <-; rewrite Hw in Hw'; lia ] ]).
  - intros World beta rho delta alpha lambda_ gamma w.
    destruct time_grid_float_increasing as [HF1 HF2].
    destruct time_grid_float_start as [SF1 SF2].
    split.
    + destruct (sird_shape_generic (World := World) HF1 SF1
                  beta rho delta alpha lambda_ w)
        as [S_ [I_ [R_ [E [_ [LS [LI [LR _]]]]]]]].
      rewrite E. simpl. rewrite LS, LI, LR. reflexivity.
    + destruct (slird_shape_generic (World := World) HF2 SF2
                  beta rho delta alpha lambda_ gamma w)
        as [S_ [L_ [I_ [R_ [E [_ [LS [LL [LI [LR _]]]]]]]]]].
      rewrite E. simpl. rewrite LS, LL, LI, LR. reflexivity.
  - intros A World N O beta rho delta alpha lambda_ gamma w.
    split; intros Hn.
    + split; [intros y s; apply sird_model_py_none; exact Hn|].
      unfold MODELO_SIRD.update_graph_py, bind.
      change (odeint (Integrate := RK4 World))
        with (rk4_odeint (World := World)).
      rewrite rk4_odeint_raises; [reflexivity|].
      intros s. apply sird_model_py_none. exact Hn.
    + split; [intros y s; apply slird_model_py_none; exact Hn|].
      unfold MODELO_SLIRD.update_graph_py, bind.
      change (odeint (Integrate := RK4 World))
        with (rk4_odeint (World := World)).
      rewrite rk4_odeint_raises; [reflexivity|].
      intros s. apply slird_model_py_none. exact Hn.
  - intros A World N Int args w. split; intros Hlen.
    + destruct args as [|a1 [|a2 [|a3 [|a4 [|a5 [|a6 l]]]]]];
        try reflexivity.
      exfalso. apply Hlen. reflexivity.
    + destruct args as [|a1 [|a2 [|a3 [|a4 [|a5 [|a6 [|a7 l]]]]]]];
        try reflexivity.
      exfalso. apply Hlen. reflexivity.
Qed.

Lemma driver_performs_no_validation_witness :
  MODELO_SLIRD.update_graph_py (A := float) (Int := RK4 unit)
    (Some 0.3%float) (Some 0.1%float) (Some 0.05%float) (Some 0.01%float)
    (Some 0.01%float) None tt
  = (None, tt) /\
  MODELO_SIRD.call_update_graph (A := float) (Int := RK4 unit)
    [Some 0.3%float; Some 0.1%float] tt
  = (None, tt) /\
  ((fst (MODELO_SIRD.update_graph (A := float) (Int := Narrow unit)
           0.3%float 0.1%float 0.05%float 0.01%float 0.01%float tt) = None)).
Proof.
  destruct driver_performs_no_validation as [Hnum [_ [Hnone Harity]]].
  split; [|split].
  - apply (proj2 (Hnone float unit Num_float Ord_float
                    (Some 0.3%float) (Some 0.1%float) (Some 0.05%float)
                    (Some 0.01%float) (Some 0.01%float) None tt)).
    right; right; right; right; right. reflexivity.
  - apply (proj1 (Harity float unit Num_float (RK4 unit)
                    [Some 0.3%float; Some 0.1%float] tt)).
    simpl. lia.
  - apply (proj1 (Hnum float unit Num_float (Narrow unit)
                    0.3%float 0.1%float 0.05%float 0.01%float 0.01%float
                    0.1%float tt)).
    right. eexists. split; [reflexivity|]. simpl. lia.
Defined.

(** * Further properties of the derivative functions *)

(** ** The two variants, and equilibria, in exact arithmetic *)

Section ExactVariants.
Context {A : Type} `{Num A} (Rth : NumRing A).
Local Open Scope num_scope.

Let Rth_variants : ring_theory (of_Z 0) (of_Z 1) add mul sub opp (@eq A) := Rth.
Add Ring num_ring_variants : Rth_variants.

Lemma latent_plus_infected (beta S_ I_ gamma L_ delta rho : A) :
  (beta * S_ * I_ - gamma * L_) + (gamma * L_ - delta * I_ - rho * I_)
  = beta * S_ * I_ - delta * I_ - rho * I_.
Proof. ring. Qed.

Lemma susceptible_rate_at_rest (beta S_ lambda_ R_ : A) :
  lambda_ * R_ = of_Z 0 ->
  of_Z 0 - beta * S_ * of_Z 0 + lambda_ * R_ = of_Z 0.
Proof. intros ->. ring. Qed.

Lemma recovered_rate_at_rest (rho lambda_ R_ : A) :
  lambda_ * R_ = of_Z 0 -> rho * of_Z 0 - lambda_ * R_ = of_Z 0.
Proof. intros ->. ring. Qed.

Lemma add_scaled_zero (a h : A) : a + h * of_Z 0 = a.
Proof. ring. Qed.

Lemma sird_rest_derivative (beta rho delta lambda_ S_ R_ s : A) :
  lambda_ * R_ = of_Z 0 ->
  sird_model [S_; of_Z 0; R_] s beta rho delta (of_Z 0) lambda_
  = Some [of_Z 0; of_Z 0; of_Z 0].
Proof.
  intros E. simpl.
  rewrite (susceptible_rate_at_rest beta S_ lambda_ R_ E),
    (recovered_rate_at_rest rho lambda_ R_ E),
    (infected_rate_at_zero Rth).
  reflexivity.
Qed.

Lemma slird_rest_derivative (beta rho delta lambda_ gamma S_ R_ s : A) :
  lambda_ * R_ = of_Z 0 ->
  slird_model [S_; of_Z 0; of_Z 0; R_] s beta rho delta (of_Z 0) lambda_ gamma
  = Some [of_Z 0; of_Z 0; of_Z 0; of_Z 0].
Proof.
  intros E. simpl.
  rewrite (susceptible_rate_at_rest beta S_ lambda_ R_ E),
    (recovered_rate_at_rest rho lambda_ R_ E),
    (latent_rate_at_zero Rth), (slird_infected_rate_at_zero Rth).
  reflexivity.
Qed.

(** From a state at rest only that state is reached. *)
Lemma sird_rest_reachable (beta rho delta lambda_ S_ R_ : A) (y : list A) :
  lambda_ * R_ = of_Z 0 ->
  Reachable (fun y s => sird_model y s beta rho delta (of_Z 0) lambda_)
            [S_; of_Z 0; R_] y ->
  y = [S_; of_Z 0; R_].
Proof.
  intros E Hy. pattern y.
  eapply Reachable_ind_incr; [reflexivity | | exact Hy].
  intros u u' s h k -> -> Ek.
  rewrite (sird_rest_derivative beta rho delta lambda_ S_ R_ s E) in Ek.
  injection Ek as <-. simpl. rewrite !add_scaled_zero. reflexivity.
Qed.

Lemma slird_rest_reachable (beta rho delta lambda_ gamma S_ R_ : A)
    (y : list A) :
  lambda_ * R_ = of_Z 0 ->
  Reachable (fun y s => slird_model y s beta rho delta (of_Z 0) lambda_ gamma)
            [S_; of_Z 0; of_Z 0; R_] y ->
  y = [S_; of_Z 0; of_Z 0; R_].
Proof.
  intros E Hy. pattern y.
  eapply Reachable_ind_incr; [reflexivity | | exact Hy].
  intros u u' s h k -> -> Ek.
  rewrite (slird_rest_derivative beta rho delta lambda_ gamma S_ R_ s E) in Ek.
  injection Ek as <-. simpl. rewrite !add_scaled_zero. reflexivity.
Qed.
End ExactVariants.

(** In exact arithmetic, on every state and for every parameter set,
    [slird_model] and [sird_model] return the same rates for the
    susceptible and the recovered compartment, and the SLIRD rates of
    the latent and the infected compartment add up to the SIRD rate of
    the infected compartment: the latent stage only delays. *)
Theorem slird_collapses_to_sird :
  forall (A : Type) (N : Num A), NumRing A ->
  forall (S_ L_ I_ R_ t beta rho delta alpha lambda_ gamma : A),
  exists dS dL dI dR eI,
    slird_model [S_; L_; I_; R_] t beta rho delta alpha lambda_ gamma
    = Some [dS; dL; dI; dR] /\
    sird_model [S_; I_; R_] t beta rho delta alpha lambda_
    = Some [dS; eI; dR] /\
    (dL + dI)%num = eI.
Proof.
  intros A N Rth S_ L_ I_ R_ t beta rho delta alpha lambda_ gamma.
  do 5 eexists. split; [reflexivity|]. split; [reflexivity|].
  apply (latent_plus_infected Rth).
Qed.

Lemma slird_collapses_to_sird_witness :
  exists dS dL dI dR eI,
    slird_model (A := R) [99/100; 1/200; 1/100; 0]%R 0%R
                (3/10)%R (1/10)%R (5/100)%R (1/100)%R (1/100)%R (1/10)%R
    = Some [dS; dL; dI; dR] /\
    sird_model (A := R) [99/100; 1/100; 0]%R 0%R
               (3/10)%R (1/10)%R (5/100)%R (1/100)%R (1/100)%R
    = Some [dS; eI; dR] /\
    (dL + dI)%R = eI.
Proof.
  exact (@slird_collapses_to_sird R Num_R R_NumRing
           (99/100)%R (1/200)%R (1/100)%R 0%R 0%R
           (3/10)%R (1/10)%R (5/100)%R (1/100)%R (1/100)%R (1/10)%R).
Defined.

(** In exact arithmetic, without replenishment ([alpha = 0]), a state
    with nobody infected (nor latent) and no reinfection flow
    ([lambda * R = 0]) is at rest: every rate is zero, so an integrator
    that works by increments returns that state in every row. *)
Theorem disease_free_state_at_rest :
  forall (A : Type) (N : Num A), NumRing A ->
  forall (S_ R_ t beta rho delta lambda_ gamma : A),
    let z := of_Z 0 in
    (lambda_ * R_)%num = z ->
    sird_model [S_; z; R_] t beta rho delta z lambda_ = Some [z; z; z] /\
    slird_model [S_; z; z; R_] t beta rho delta z lambda_ gamma
    = Some [z; z; z; z] /\
    (forall (World : Type) (Int : Integrate A World),
        odeint_by_increments Int ->
        forall ts w,
          (forall sol,
              fst (odeint (fun y s => sird_model y s beta rho delta z lambda_)
                          [S_; z; R_] ts w) = Some sol ->
              Forall (fun row => row = [S_; z; R_]) (rows sol)) /\
          (forall sol,
              fst (odeint (fun y s =>
                             slird_model y s beta rho delta z lambda_ gamma)
                          [S_; z; z; R_] ts w) = Some sol ->
              Forall (fun row => row = [S_; z; z; R_]) (rows sol))).
Proof.
  intros A N Rth S_ R_ t beta rho delta lambda_ gamma z E.
  split; [exact (sird_rest_derivative Rth beta rho delta lambda_ S_ R_ t E)|].
  split; [exact (slird_rest_derivative Rth beta rho delta lambda_ gamma
                                       S_ R_ t E)|].
  intros World Int Hinc ts w. split; intros sol Es.
  - eapply Forall_impl; [|exact (Hinc _ _ _ _ _ Es)].
    intros y. apply (sird_rest_reachable Rth); exact E.
  - eapply Forall_impl; [|exact (Hinc _ _ _ _ _ Es)].
    intros y. apply (slird_rest_reachable Rth); exact E.
Qed.

Lemma disease_free_state_at_rest_witness :
  sird_model (A := R) [1; 0; 0]%R 0%R (3/10)%R (1/10)%R (5/100)%R 0%R (1/100)%R
  = Some [0; 0; 0]%R /\
  exists sol,
    fst (odeint (Integrate := Euler unit)
           (fun y s => sird_model (A := R) y s
                         (3/10)%R (1/10)%R (5/100)%R 0%R (1/100)%R)
           [1; 0; 0]%R [0; 1; 2]%R tt) = Some sol /\
    length (rows sol) = 3%nat /\
    Forall (fun row => row = [1; 0; 0]%R) (rows sol).
Proof.
  assert (E : (1/100 * 0)%R = 0%R) by lra.
  pose proof (@disease_free_state_at_rest R Num_R R_NumRing
                1%R 0%R 0%R (3/10)%R (1/10)%R (5/100)%R (1/100)%R (1/10)%R E)
    as [Hd [_ Hint]].
  split; [exact Hd|].
  eexists. split; [reflexivity|]. split; [reflexivity|].
  apply (proj1 (Hint unit (Euler unit) Euler_by_increments [0; 1; 2]%R tt)).
  reflexivity.
Defined.

(** ** Signs of the rates, over the real numbers *)

(** Epidemic threshold. With somebody infected ([I > 0]) the SIRD rate
    of the infected compartment is positive, zero or negative as
    [beta * S] is above, at or below [delta + rho]; the same holds for
    the sum of the SLIRD rates of the latent and infected compartments. *)
Theorem epidemic_threshold :
  forall (S_ L_ I_ R_ t beta rho delta alpha lambda_ gamma : R),
    (0 < I_)%R ->
    exists dS dI dR dS' dL' dI' dR',
      sird_model [S_; I_; R_] t beta rho delta alpha lambda_
      = Some [dS; dI; dR] /\
      slird_model [S_; L_; I_; R_] t beta rho delta alpha lambda_ gamma
      = Some [dS'; dL'; dI'; dR'] /\
      ((0 < dI <-> delta + rho < beta * S_) /\
       (dI = 0 <-> beta * S_ = delta + rho) /\
       (dI < 0 <-> beta * S_ < delta + rho))%R /\
      ((0 < dL' + dI' <-> delta + rho < beta * S_) /\
       (dL' + dI' = 0 <-> beta * S_ = delta + rho) /\
       (dL' + dI' < 0 <-> beta * S_ < delta + rho))%R.
Proof.
  intros S_ L_ I_ R_ t beta rho delta alpha lambda_ gamma HI.
  do 7 eexists. split; [reflexivity|]. split; [reflexivity|].
  simpl.
  assert (Hf : (beta * S_ * I_ - delta * I_ - rho * I_
                = (beta * S_ - (delta + rho)) * I_)%R) by ring.
  assert (Hg : (beta * S_ * I_ - gamma * L_
                + (gamma * L_ - delta * I_ - rho * I_)
                = (beta * S_ - (delta + rho)) * I_)%R) by ring.
  rewrite Hf, Hg.
  assert (Hsign : forall c : R,
             ((0 < c * I_ <-> 0 < c) /\ (c * I_ = 0 <-> c = 0) /\
              (c * I_ < 0 <-> c < 0))%R).
  { intros c. repeat split; intros Hc; nra. }
  destruct (Hsign (beta * S_ - (delta + rho))%R) as [[P1 P2] [[Z1 Z2] [N1 N2]]].
  repeat split; intros Hc;
    first [ apply P2; lra | apply Z2; lra | apply N2; lra
          | apply P1 in Hc; lra | apply Z1 in Hc; lra | apply N1 in Hc; lra ].
Qed.

Lemma epidemic_threshold_witness :
  exists dS dI dR,
    sird_model (A := R) [99/100; 1/100; 0]%R 0%R
               (3/10)%R (1/10)%R (5/100)%R (1/100)%R (1/100)%R
    = Some [dS; dI; dR] /\ (0 < dI)%R.
Proof.
  assert (HI : (0 < 1/100)%R) by lra.
  destruct (@epidemic_threshold (99/100)%R 0%R (1/100)%R 0%R 0%R
              (3/10)%R (1/10)%R (5/100)%R (1/100)%R (1/100)%R (1/10)%R HI)
    as [dS [dI [dR [dS' [dL' [dI' [dR' [E [_ [[[_ Hpos] _] _]]]]]]]]]].
  exists dS, dI, dR. split; [exact E|]. apply Hpos. lra.
Defined.

(** On the boundary of the non-negative states the rates point inwards:
    with non-negative rates and a non-negative state, the rate of a
    compartment that is empty is never negative. *)
Theorem rates_point_inwards :
  forall (S_ L_ I_ R_ t beta rho delta alpha lambda_ gamma : R),
    (0 <= beta)%R -> (0 <= rho)%R -> (0 <= alpha)%R ->
    (0 <= lambda_)%R -> (0 <= gamma)%R ->
    (0 <= S_)%R -> (0 <= L_)%R -> (0 <= I_)%R -> (0 <= R_)%R ->
    exists dS dI dR dS' dL' dI' dR',
      sird_model [S_; I_; R_] t beta rho delta alpha lambda_
      = Some [dS; dI; dR] /\
      slird_model [S_; L_; I_; R_] t beta rho delta alpha lambda_ gamma
      = Some [dS'; dL'; dI'; dR'] /\
      ((S_ = 0 -> 0 <= dS) /\ (I_ = 0 -> dI = 0) /\ (R_ = 0 -> 0 <= dR))%R /\
      ((S_ = 0 -> 0 <= dS') /\ (L_ = 0 -> 0 <= dL') /\
       (I_ = 0 -> 0 <= dI') /\ (R_ = 0 -> 0 <= dR'))%R.
Proof.
  intros S_ L_ I_ R_ t beta rho delta alpha lambda_ gamma
         Hb Hr Ha Hl Hg HS HL HI HR.
  do 7 eexists. split; [reflexivity|]. split; [reflexivity|].
  simpl.
  assert (0 <= lambda_ * R_)%R by (apply Rmult_le_pos; assumption).
  assert (0 <= rho * I_)%R by (apply Rmult_le_pos; assumption).
  assert (0 <= gamma * L_)%R by (apply Rmult_le_pos; assumption).
  assert (0 <= beta * S_ * I_)%R
    by (apply Rmult_le_pos; [apply Rmult_le_pos|]; assumption).
  repeat split; intros ->; nra.
Qed.

Lemma rates_point_inwards_witness :
  exists dS dI dR,
    sird_model (A := R) [0; 1/100; 0]%R 0%R
               (3/10)%R (1/10)%R (5/100)%R (1/100)%R (1/100)%R
    = Some [dS; dI; dR] /\ (0 <= dS)%R /\ (0 <= dR)%R.
Proof.
  destruct (@rates_point_inwards 0%R 0%R (1/100)%R 0%R 0%R
              (3/10)%R (1/10)%R (5/100)%R (1/100)%R (1/100)%R (1/10)%R
              ltac:(lra) ltac:(lra) ltac:(lra) ltac:(lra) ltac:(lra)
              ltac:(lra) ltac:(lra) ltac:(lra) ltac:(lra))
    as [dS [dI [dR [dS' [dL' [dI' [dR' [E [_ [[HS [_ HR]] _]]]]]]]]]].
  exists dS, dI, dR. split; [exact E|].
  split; [apply HS | apply HR]; reflexivity.
Defined.

(** Without replenishment and reinfection ([alpha = 0], [lambda = 0]),
    on non-negative states and with non-negative contact and recovery
    rates, the susceptible compartment never grows and the recovered
    compartment never shrinks, in both variants. *)
Theorem one_way_flow :
  forall (S_ L_ I_ R_ t beta rho delta gamma : R),
    (0 <= beta)%R -> (0 <= rho)%R -> (0 <= S_)%R -> (0 <= I_)%R ->
    exists dS dI dR dS' dL' dI' dR',
      sird_model [S_; I_; R_] t beta rho delta 0%R 0%R
      = Some [dS; dI; dR] /\
      slird_model [S_; L_; I_; R_] t beta rho delta 0%R 0%R gamma
      = Some [dS'; dL'; dI'; dR'] /\
      (dS <= 0 /\ 0 <= dR /\ dS' <= 0 /\ 0 <= dR')%R.
Proof.
  intros S_ L_ I_ R_ t beta rho delta gamma Hb Hr HS HI.
  do 7 eexists. split; [reflexivity|]. split; [reflexivity|].
  simpl.
  assert (0 <= rho * I_)%R by (apply Rmult_le_pos; assumption).
  assert (0 <= beta * S_ * I_)%R
    by (apply Rmult_le_pos; [apply Rmult_le_pos|]; assumption).
  repeat split; lra.
Qed.

Lemma one_way_flow_witness :
  exists dS dI dR,
    sird_model (A := R) [99/100; 1/100; 0]%R 0%R
               (3/10)%R (1/10)%R (5/100)%R 0%R 0%R
    = Some [dS; dI; dR] /\ (dS <= 0)%R /\ (0 <= dR)%R.
Proof.
  destruct (@one_way_flow (99/100)%R 0%R (1/100)%R 0%R 0%R
              (3/10)%R (1/10)%R (5/100)%R (1/10)%R
              ltac:(lra) ltac:(lra) ltac:(lra) ltac:(lra))
    as [dS [dI [dR [dS' [dL' [dI' [dR' [E [_ [HS [HR _]]]]]]]]]]].
  exists dS, dI, dR. split; [exact E|]. split; assumption.
Defined.

(** Change of unit. Measuring the population in another unit (every
    compartment and the replenishment multiplied by [c], the contact
    rate divided by [c]) multiplies every rate by [c], in both
    variants: fractions and head counts follow the same law. *)
Theorem rates_scale_with_unit :
  forall (c S_ L_ I_ R_ t beta rho delta alpha lambda_ gamma : R),
    c <> 0%R ->
    sird_model [c * S_; c * I_; c * R_]%R t
               (beta / c)%R rho delta (c * alpha)%R lambda_
    = option_map (vscale c)
        (sird_model [S_; I_; R_] t beta rho delta alpha lambda_) /\
    slird_model [c * S_; c * L_; c * I_; c * R_]%R t
                (beta / c)%R rho delta (c * alpha)%R lambda_ gamma
    = option_map (vscale c)
        (slird_model [S_; L_; I_; R_] t beta rho delta alpha lambda_ gamma).
Proof.
  intros c S_ L_ I_ R_ t beta rho delta alpha lambda_ gamma Hc.
  unfold vscale. simpl.
  split; f_equal; repeat (f_equal; [field; exact Hc|]); f_equal; ring.
Qed.

Lemma rates_scale_with_unit_witness :
  sird_model (A := R) [1000 * (99/100); 1000 * (1/100); 1000 * 0]%R 0%R
             (3/10 / 1000)%R (1/10)%R (5/100)%R (1000 * (1/100))%R (1/100)%R
  = option_map (vscale 1000%R)
      (sird_model (A := R) [99/100; 1/100; 0]%R 0%R
                  (3/10)%R (1/10)%R (5/100)%R (1/100)%R (1/100)%R).
Proof.
  assert (Hc : 1000%R <> 0%R) by lra.
  exact (proj1 (@rates_scale_with_unit 1000%R (99/100)%R 0%R (1/100)%R 0%R 0%R
                  (3/10)%R (1/10)%R (5/100)%R (1/100)%R (1/100)%R (1/10)%R
                  Hc)).
Defined.

(** ** Growth of the tracked population, over the real numbers *)

(** With a non-negative mortality rate and a non-negative infected
    compartment, the rates of a variant never add up to more than the
    replenishment [alpha]: the tracked population grows at most by what
    is let in, and does not grow at all when [alpha = 0]. *)
Theorem population_growth_bounded :
  forall (S_ L_ I_ R_ t beta rho delta alpha lambda_ gamma : R),
    (0 <= delta)%R -> (0 <= I_)%R ->
    exists d d',
      sird_model [S_; I_; R_] t beta rho delta alpha lambda_ = Some d /\
      slird_model [S_; L_; I_; R_] t beta rho delta alpha lambda_ gamma
      = Some d' /\
      (vsum d <= alpha)%R /\ (vsum d' <= alpha)%R.
Proof.
  intros S_ L_ I_ R_ t beta rho delta alpha lambda_ gamma Hd HI.
  do 2 eexists. split; [reflexivity|]. split; [reflexivity|].
  assert (0 <= delta * I_)%R by (apply Rmult_le_pos; assumption).
  rewrite (sird_model_sum R_NumRing [S_; I_; R_] t beta rho delta alpha
                          lambda_ eq_refl).
  rewrite (slird_model_sum R_NumRing [S_; L_; I_; R_] t beta rho delta alpha
                           lambda_ gamma eq_refl).
  simpl. split; lra.
Qed.

Lemma population_growth_bounded_witness :
  exists d,
    sird_model (A := R) [99/100; 1/100; 0]%R 0%R
               (3/10)%R (1/10)%R (5/100)%R 0%R (1/100)%R = Some d /\
    (vsum d <= 0)%R.
Proof.
  destruct (@population_growth_bounded (99/100)%R 0%R (1/100)%R 0%R 0%R
              (3/10)%R (1/10)%R (5/100)%R 0%R (1/100)%R (1/10)%R
              ltac:(lra) ltac:(lra))
    as [d [d' [E [_ [Hle _]]]]].
  exists d. split; [exact E | exact Hle].
Defined.
